(** * Longevity RAG service: a shallow embedding of [RAGLongevityService],
      [GeminiRAGService] (rag/src) and of the query handler of
      [RAGLongevityAPI] (rag/index.js), with the properties of the ranker,
      the chunker, the citation extractor, the confidence score, the
      embedding cache and the query pipeline.

    Conventions of the embedding.
    - A JS string is its sequence of UTF-16 code units, [list N].
    - A finite JS number is a rational ([Q]).  The arithmetic of the
      scores is exact, so what is proved of it are bounds, orders and
      formulas that rounding to the nearest double preserves; where the
      rounding itself decides (ties of the ranker, numerals beyond 2^53)
      the operations are followed by [round64], the rounding of IEEE-754
      binary64.  Where the source can produce NaN or an infinity the type
      [jsnum] is used.
    - An optional property of a JS object is an [option]; JS truthiness is
      written out at each use.
    - External services (embedding provider, vector store, generator) are
      oracles that see the history of calls made so far; every call is
      recorded in a trace. *)

From Stdlib Require Import QArith Qminmax Qround Lqa Lia ZArith Ascii String List.
From Stdlib Require Import Permutation Sorted.
From stdpp Require Import gmap strings list.

Open Scope Q_scope.

(* ================================================================== *)
(** * Part I: the embedding                                            *)
(* ================================================================== *)

(** ** JS strings *)

Abbreviation jsstring := (list N).

(** A string literal of the source, as code units. *)
Definition str (s : string) : jsstring :=
  N_of_ascii <$> list_ascii_of_string s.

Definition streq (a b : jsstring) : bool := bool_decide (a = b).

(** [a === lit] for an optional property [a]. *)
Definition is_lit (a : option jsstring) (lit : jsstring) : bool :=
  match a with
  | Some s => streq s lit
  | None => false
  end.

(** [String.prototype.startsWith]. *)
Fixpoint starts_with (p s : jsstring) : bool :=
  match p, s with
  | [], _ => true
  | _ :: _, [] => false
  | a :: p', b :: s' => (a =? b)%N && starts_with p' s'
  end.

(** [String.prototype.includes]. *)
Fixpoint includes (needle hay : jsstring) : bool :=
  starts_with needle hay ||
  match hay with
  | [] => false
  | _ :: hay' => includes needle hay'
  end.

(** [String.prototype.substring(0, n)]. *)
Definition substring0 (n : nat) (s : jsstring) : jsstring := take n s.

(** [String.prototype.split(' ')]: the maximal runs between occurrences of
    the separator; never the empty array. *)
Fixpoint split (sep : N) (s : jsstring) : list jsstring :=
  match s with
  | [] => [[]]
  | c :: s' =>
      if (c =? sep)%N then [] :: split sep s'
      else match split sep s' with
           | w :: ws => (c :: w) :: ws
           | [] => [[c]]
           end
  end.

(** [Array.prototype.join(' ')]. *)
Fixpoint join (sep : N) (ws : list jsstring) : jsstring :=
  match ws with
  | [] => []
  | [w] => w
  | w :: ws' => w ++ sep :: join sep ws'
  end.

Definition SPACE : N := 32.

(** ** JS numbers with NaN and infinities *)

Inductive jsnum :=
| NaN
| Inf (negative : bool)
| Fin (q : Q).

Definition Qneg (q : Q) : bool := negb (Qle_bool 0 q).
Definition Qzero (q : Q) : bool := Qeq_bool q 0.

Definition jsadd (a b : jsnum) : jsnum :=
  match a, b with
  | NaN, _ | _, NaN => NaN
  | Inf s, Inf s' => if Bool.eqb s s' then Inf s else NaN
  | Inf s, Fin _ | Fin _, Inf s => Inf s
  | Fin x, Fin y => Fin (x + y)
  end.

Definition jsmul (a b : jsnum) : jsnum :=
  match a, b with
  | NaN, _ | _, NaN => NaN
  | Inf s, Inf s' => Inf (xorb s s')
  | Inf s, Fin q | Fin q, Inf s => if Qzero q then NaN else Inf (xorb s (Qneg q))
  | Fin x, Fin y => Fin (x * y)
  end.

(** Division; a zero divisor is the positive zero (the divisors of the
    source are array lengths). *)
Definition jsdiv (a b : jsnum) : jsnum :=
  match a, b with
  | NaN, _ | _, NaN => NaN
  | Inf _, Inf _ => NaN
  | Inf s, Fin q => Inf (xorb s (Qneg q))
  | Fin _, Inf _ => Fin 0
  | Fin x, Fin y =>
      if Qzero y then (if Qzero x then NaN else Inf (Qneg x))
      else Fin (x / y)
  end.

(** [Math.max] and [Math.min]: NaN when either argument is NaN. *)
Definition Math_max (a b : jsnum) : jsnum :=
  match a, b with
  | NaN, _ | _, NaN => NaN
  | Inf false, _ | _, Inf false => Inf false
  | Inf true, x | x, Inf true => x
  | Fin x, Fin y => Fin (Qmax x y)
  end.

Definition Math_min (a b : jsnum) : jsnum :=
  match a, b with
  | NaN, _ | _, NaN => NaN
  | Inf true, _ | _, Inf true => Inf true
  | Inf false, x | x, Inf false => x
  | Fin x, Fin y => Fin (Qmin x y)
  end.

(** [a > b]: false when either side is NaN. *)
Definition jsgt (a b : jsnum) : bool :=
  match a, b with
  | NaN, _ | _, NaN => false
  | Inf s, Inf s' => negb s && s'
  | Inf s, Fin _ => negb s
  | Fin _, Inf s => s
  | Fin x, Fin y => negb (Qle_bool x y)
  end.

(** The score is a number of the closed interval [[0,1]]. *)
Definition in_unit (x : jsnum) : Prop :=
  match x with
  | Fin q => 0 <= q <= 1
  | _ => False
  end.

(** ** Rounding to binary64 *)

(** The nearest integer, ties to even. *)
Definition rne (x : Q) : Z :=
  let f := Qfloor x in
  match Qcompare (x - inject_Z f) (1 # 2) with
  | Lt => f
  | Gt => (f + 1)%Z
  | Eq => if Z.even f then f else (f + 1)%Z
  end.

(** Doubles are the multiples m * 2^u of 2^-1074 with m < 2^53.  For a
    magnitude [y], in units of 2^-1074, the exponent [u] of its binade: 0
    below 2^53 (subnormal numbers and the first normal binades). *)
Definition ulp_exp (y : Q) : Z :=
  let n := Qfloor y in
  if (n <? 2 ^ 53)%Z then 0%Z else (Z.log2 n - 52)%Z.

Definition round_scaled (y : Q) : Q :=
  let u := ulp_exp y in
  inject_Z (rne (y / inject_Z (2 ^ u))) * inject_Z (2 ^ u).

Definition SCALE : Q := inject_Z (2 ^ 1074).

(** The double nearest to [x], ties to even, for [x] below the overflow
    threshold. *)
Definition round64 (x : Q) : Q :=
  Qred (if Qle_bool 0 x then round_scaled (x * SCALE) / SCALE
        else - (round_scaled (- x * SCALE) / SCALE)).

(** From this magnitude on, rounding gives Infinity: 2^1024 - 2^970. *)
Definition OVERFLOW : Q := inject_Z (2 ^ 1024 - 2 ^ 970).


(** ** Knowledge records and search results *)

Record Metadata := {
  md_text : option jsstring;
  type : option jsstring;
  author : option jsstring;
  year : option Z;
  clinical_relevance : option Q;
  language : option jsstring
}.

Record SearchResult := {
  id : jsstring;
  score : Q;
  text : jsstring;
  metadata : Metadata;
  relevance : Q
}.

(** Truthiness of an optional string property. *)
Definition truthy_str (a : option jsstring) : bool :=
  match a with
  | Some (_ :: _) => true
  | _ => false
  end.

(** [a || dflt] for an optional string property. *)
Definition str_or (a : option jsstring) (dflt : jsstring) : jsstring :=
  match a with
  | Some (c :: s) => c :: s
  | _ => dflt
  end.

(** [author?.includes(name)], as a condition. *)
Definition author_includes (a : option jsstring) (name : jsstring) : bool :=
  match a with
  | Some s => includes name s
  | None => false
  end.

(** ** Relevance ranker *)

(** [getRecencyBonus]; [currentYear] is [new Date().getFullYear()]. *)
Definition getRecencyBonus (currentYear : Z) (year : option Z) : Q :=
  match year with
  | None => 0
  | Some y =>
      if (y =? 0)%Z then 0
      else
        let yearsOld := (currentYear - y)%Z in
        if (yearsOld <=? 1)%Z then 0.2
        else if (yearsOld <=? 2)%Z then 0.15
        else if (yearsOld <=? 3)%Z then 0.1
        else 0
  end.

Definition PROFESSOR_OH : jsstring := Eval vm_compute in str "Chang-Myung Oh".

Definition getAuthorityBonus (type author : option jsstring) : Q :=
  if is_lit type (str "professor_expertise") || author_includes author PROFESSOR_OH
  then 0.3
  else if is_lit type (str "research_paper") && truthy_str author
  then 0.15
  else if is_lit type (str "clinical_trial")
  then 0.2
  else 0.

(** [metadata.clinical_relevance || 0.5]: an absent or zero value gives the
    default. *)
Definition clinicalRelevance (m : Metadata) : Q :=
  match clinical_relevance m with
  | Some c => if Qzero c then 0.5 else c
  | None => 0.5
  end.

Definition calculateRelevance (currentYear : Z) (score : Q) (m : Metadata) : Q :=
  let similarityScore := score in
  let recencyBonus := getRecencyBonus currentYear (year m) in
  let authorityBonus := getAuthorityBonus (type m) (author m) in
  (similarityScore * 0.4) +
  (clinicalRelevance m * 0.3) +
  (recencyBonus * 0.2) +
  (authorityBonus * 0.1).


(** The class [[가-힣]]. *)
Definition is_hangul (c : N) : bool := ((0xAC00 <=? c) && (c <=? 0xD7A3))%N.

(** The class [\s] of ECMAScript. *)
Definition is_space (c : N) : bool :=
  (((9 <=? c) && (c <=? 13)) || (c =? 32) || (c =? 0xA0) || (c =? 0x1680) ||
   ((0x2000 <=? c) && (c <=? 0x200A)) || (c =? 0x2028) || (c =? 0x2029) ||
   (c =? 0x202F) || (c =? 0x205F) || (c =? 0x3000) || (c =? 0xFEFF))%N.

Definition KOREAN : jsstring := Eval vm_compute in str "korean".
Definition ENGLISH : jsstring := Eval vm_compute in str "english".

(** [detectLanguage]: [text.match] gives null when nothing matches, and the
    division is then not evaluated. *)
Definition detectLanguage (text : jsstring) : jsstring :=
  let koreanChars := List.filter is_hangul text in
  let totalChars := List.length (List.filter (fun c => negb (is_space c)) text) in
  match koreanChars with
  | [] => ENGLISH
  | _ :: _ =>
      if negb (Qle_bool (inject_Z (Z.of_nat (List.length koreanChars)) /
                         inject_Z (Z.of_nat totalChars)) 0.3)
      then KOREAN else ENGLISH
  end.

Definition calculateMultilingualRelevance
    (currentYear : Z) (score : Q) (m : Metadata) (query : jsstring) : Q :=
  let baseRelevance := calculateRelevance currentYear score m in
  let queryLanguage := detectLanguage query in
  let contentLanguage := str_or (language m) ENGLISH in
  let languageBonus := if streq queryLanguage contentLanguage then 0.2 else 0 in
  let koreanBonus :=
    if streq queryLanguage KOREAN && streq contentLanguage KOREAN then 0.1 else 0 in
  Qmin 1 (baseRelevance + languageBonus + koreanBonus).

(** ** Confidence scoring *)

Definition num (n : nat) : jsnum := Fin (inject_Z (Z.of_nat n)).

Module Confidence.
Record t := {
  score : jsnum;
  level : jsstring;
  relevance_avg : jsnum;
  source_count : nat;
  authority_sources : nat
}.
End Confidence.

(** [sources.reduce((sum, s) => sum + s.relevance, 0)]. *)
Definition sum_relevance (sources : list SearchResult) : Q :=
  fold_left (fun sum s => sum + relevance s) sources 0.

Definition is_authority (s : SearchResult) : bool :=
  is_lit (type (metadata s)) (str "professor_expertise") ||
  author_includes (author (metadata s)) PROFESSOR_OH.

(** The weighted sum and the clamp shared by both confidence functions. *)
Definition confidence_of (avgRelevance : jsnum) (sourceCount authorityScore : nat) : jsnum :=
  let confidence :=
    jsadd (jsadd (jsmul avgRelevance (Fin 0.4)) (jsmul (num sourceCount) (Fin 0.3)))
          (jsmul (num authorityScore) (Fin 0.3)) in
  Math_min (Fin 1) (Math_max (Fin 0) confidence).

Definition calculateResponseConfidence (sources : list SearchResult) : Confidence.t :=
  let avgRelevance := jsdiv (Fin (sum_relevance sources)) (num (List.length sources)) in
  let sourceCount := List.length sources in
  let authorityScore := List.length (List.filter is_authority sources) in
  let confidence := confidence_of avgRelevance sourceCount authorityScore in
  {| Confidence.score := confidence;
     Confidence.level :=
       if jsgt confidence (Fin 0.8) then str "High"
       else if jsgt confidence (Fin 0.6) then str "Medium"
       else str "Low";
     Confidence.relevance_avg := avgRelevance;
     Confidence.source_count := sourceCount;
     Confidence.authority_sources := authorityScore |}.

(** The Korean literals of [GeminiRAGService], as code units. *)
Definition PROFESSOR_OH_KO : jsstring := [0xC7A5; 0xC218; 0xC601; 0x20; 0xC624]%N.
Definition LEVEL_HIGH_KO : jsstring := [0xB192; 0xC74C]%N.
Definition LEVEL_MEDIUM_KO : jsstring := [0xC911; 0xAC04]%N.
Definition LEVEL_LOW_KO : jsstring := [0xB0AE; 0xC74C]%N.

Definition is_gemini_authority (s : SearchResult) : bool :=
  is_lit (type (metadata s)) (str "professor_expertise") ||
  author_includes (author (metadata s)) PROFESSOR_OH_KO ||
  is_lit (language (metadata s)) KOREAN.

Definition calculateGeminiConfidence (sources : list SearchResult) : Confidence.t :=
  let avgRelevance := jsdiv (Fin (sum_relevance sources)) (num (List.length sources)) in
  let sourceCount := List.length sources in
  let authorityScore := List.length (List.filter is_gemini_authority sources) in
  let confidence := confidence_of avgRelevance sourceCount authorityScore in
  {| Confidence.score := confidence;
     Confidence.level :=
       if jsgt confidence (Fin 0.8) then LEVEL_HIGH_KO
       else if jsgt confidence (Fin 0.6) then LEVEL_MEDIUM_KO
       else LEVEL_LOW_KO;
     Confidence.relevance_avg := avgRelevance;
     Confidence.source_count := sourceCount;
     Confidence.authority_sources := authorityScore |}.

(** ** Citation extraction *)

Module Citation.
Record t := {
  text : jsstring;
  sourceNumber : jsnum
}.
End Citation.

Definition is_digit (c : N) : bool := ((48 <=? c) && (c <=? 57))%N.

(** The longest prefix of digits, and what follows it. *)
Fixpoint span_digits (s : jsstring) : jsstring * jsstring :=
  match s with
  | c :: s' =>
      if is_digit c then let (ds, r) := span_digits s' in (c :: ds, r)
      else ([], s)
  | [] => ([], [])
  end.

Definition SOURCE_OPEN : jsstring := Eval vm_compute in str "[Source ".
Definition RBRACKET : N := 93.

(** One match of [/\[Source \d+\]/] anchored at the start of [s]. *)
Definition match_citation_at (s : jsstring) : option jsstring :=
  if starts_with SOURCE_OPEN s then
    match span_digits (drop (List.length SOURCE_OPEN) s) with
    | ((_ :: _) as ds, c :: _) =>
        if (c =? RBRACKET)%N then Some (SOURCE_OPEN ++ ds ++ [RBRACKET]) else None
    | _ => None
    end
  else None.

(** [text.match(/\[Source \d+\]/g) || []]: the matches from left to right,
    each search resuming after the previous match; [skip] counts the code
    units of the current match still to pass. *)
Fixpoint match_all (skip : nat) (s : jsstring) : list jsstring :=
  match s with
  | [] => []
  | _ :: s' =>
      match skip with
      | S k => match_all k s'
      | O =>
          match match_citation_at s with
          | Some m => m :: match_all (List.length m - 1) s'
          | None => match_all 0 s'
          end
      end
  end.

(** [citation.match(/\d+/)]: the first run of digits, or null. *)
Fixpoint first_digits (s : jsstring) : option jsstring :=
  match s with
  | c :: s' => if is_digit c then Some (fst (span_digits s)) else first_digits s'
  | [] => None
  end.

(** The natural number that a string of digits writes in base 10. *)
Definition digits_value (ds : jsstring) : N :=
  fold_left (fun n c => (10 * n + (c - 48))%N) ds 0%N.

(** [parseInt] of a string of digits: the double nearest to the number
    written, Infinity from the overflow threshold on, NaN for no digit.
    (Beyond 20 significant digits ECMAScript lets an engine approximate
    the number before rounding; V8 rounds the number written.) *)
Definition parseInt (ds : jsstring) : jsnum :=
  match ds with
  | [] => NaN
  | _ :: _ =>
      let v := inject_Z (Z.of_N (digits_value ds)) in
      if Qle_bool OVERFLOW v then Inf false else Fin (round64 v)
  end.

(** [extractCitations]; [None] is the TypeError of indexing a null match. *)
Definition extractCitations (text : jsstring) : option (list Citation.t) :=
  let citations := match_all 0 text in
  mapM (fun citation =>
          sourceNum ← first_digits citation;
          Some {| Citation.text := citation;
                  Citation.sourceNumber := parseInt sourceNum |}) citations.

Module Formatted.
Record t := {
  text : jsstring;
  citations : list Citation.t;
  sourceCount : nat
}.
End Formatted.

Definition formatRAGResponse (response : jsstring) (sources : list SearchResult)
  : option Formatted.t :=
  citations ← extractCitations response;
  Some {| Formatted.text := response;
          Formatted.citations := citations;
          Formatted.sourceCount := List.length sources |}.

(** ** Chunking *)

(** [Array.prototype.slice(i, j)] for in-range [i <= j]. *)
Definition slice {A} (i j : nat) (l : list A) : list A := take (j - i) (drop i l).

(** The loop [for (let i = 0; i < words.length; i += chunkSize)]; [None]
    when the fuel runs out before the loop ends. *)
Fixpoint chunk_loop (fuel : nat) (words : list jsstring) (chunkSize i : nat)
    (chunks : list jsstring) : option (list jsstring) :=
  if (i <? List.length words)%nat then
    match fuel with
    | O => None
    | S fuel' =>
        let chunk := join SPACE (slice i (i + chunkSize) words) in
        chunk_loop fuel' words chunkSize (i + chunkSize) (chunks ++ [chunk])
    end
  else Some chunks.

(** [chunkDocument]: with a positive [chunkSize] the loop ends within
    [words.length] rounds; with [chunkSize = 0] it never ends. *)
Definition chunkDocument (text : jsstring) (chunkSize : nat) : option (list jsstring) :=
  let words := split SPACE text in
  chunk_loop (List.length words) words chunkSize 0 [].

(** Words in the sense of the specification: the maximal runs of code
    units that are not white space. *)
Fixpoint whitespace_words_aux (cur : jsstring) (s : jsstring) : list jsstring :=
  match s with
  | [] => match cur with [] => [] | _ => [cur] end
  | c :: s' =>
      if is_space c
      then match cur with
           | [] => whitespace_words_aux [] s'
           | _ => cur :: whitespace_words_aux [] s'
           end
      else whitespace_words_aux (cur ++ [c]) s'
  end.

Definition whitespace_words (s : jsstring) : list jsstring := whitespace_words_aux [] s.

(** ** Ranking of search results *)

(** [Array.prototype.sort((a, b) => b.relevance - a.relevance)]: a stable
    sort; [a] stays before [b] unless the comparator is positive. *)
Fixpoint insert_desc (x : SearchResult) (l : list SearchResult) : list SearchResult :=
  match l with
  | [] => [x]
  | y :: l' =>
      if Qle_bool (relevance y - relevance x) 0 then x :: l
      else y :: insert_desc x l'
  end.

Definition sort_desc (l : list SearchResult) : list SearchResult :=
  foldr insert_desc [] l.

Definition TOP_K : nat := 5.

(** ** The query pipeline *)

(** Values a caller can pass as a query or as a profile. *)
Inductive jsval :=
| JUndefined
| JNull
| JBool (b : bool)
| JNumber (x : jsnum)
| JString (s : jsstring)
| JObject.

(** [!!v]. *)
Definition truthy (v : jsval) : bool :=
  match v with
  | JUndefined | JNull => false
  | JBool b => b
  | JNumber NaN => false
  | JNumber (Inf _) => true
  | JNumber (Fin q) => negb (Qzero q)
  | JString s => match s with [] => false | _ => true end
  | JObject => true
  end.

Abbreviation embedding := (list Q).

(** A match returned by the vector store. *)
Record Match := {
  match_id : jsstring;
  match_score : Q;
  match_metadata : Metadata
}.

(** Calls that leave the process. *)
Inductive event :=
| PineconeIndex (indexName : jsstring)
| EmbeddingsCreate (input : jsstring)
| IndexQuery (vector : embedding) (topK : nat) (types : list jsstring)
| ChatCompletionsCreate (system user : jsstring).

(** The collaborators of the service.  Each external call sees the calls
    made before it and may fail ([None], [false]): the source rethrows.
    Prompt construction is string formatting on which no property below
    depends; it may throw on an ill-shaped profile. *)
Record Externals := {
  currentYear : Z;
  pinecone_index : list event -> jsstring -> bool;
  embeddings_create : list event -> jsstring -> option embedding;
  index_query : list event -> embedding -> nat -> list jsstring -> option (list Match);
  chat_completions_create : list event -> jsstring -> jsstring -> option jsstring;
  formatRAGContext : list SearchResult -> jsval -> option jsstring;
  getRAGSystemPrompt : jsval -> option jsstring;
  getRAGUserPrompt : jsval -> jsstring -> jsstring
}.

Record State := {
  embeddingsCache : gmap (list N) (list Q);
  trace : list event
}.

Inductive error :=
| TypeError
| ExternalError (e : event).

(** Computations of the service: a state and exception monad. *)
Definition M (A : Type) : Type := State -> (error + A) * State.

Definition ret {A} (a : A) : M A := fun st => (inr a, st).
Definition throw {A} (e : error) : M A := fun st => (inl e, st).
Definition bind {A B} (m : M A) (k : A -> M B) : M B :=
  fun st =>
    match m st with
    | (inr a, st') => k a st'
    | (inl e, st') => (inl e, st')
    end.

Notation "x <- m ;; k" := (bind m (fun x => k))
  (at level 100, m at next level, right associativity).

(** Record the call [e] and give its outcome. *)
Definition call {A} (e : event) (outcome : list event -> option A) : M A :=
  fun st =>
    let st' := {| embeddingsCache := embeddingsCache st; trace := trace st ++ [e] |} in
    match outcome (trace st) with
    | Some a => (inr a, st')
    | None => (inl (ExternalError e), st')
    end.

Definition of_option {A} (o : option A) : M A :=
  match o with
  | Some a => ret a
  | None => throw TypeError
  end.

Definition cache_get (key : jsstring) : M (option embedding) :=
  fun st => (inr (embeddingsCache st !! key), st).

Definition cache_set (key : jsstring) (e : embedding) : M unit :=
  fun st => (inr tt, {| embeddingsCache := <[key := e]> (embeddingsCache st);
                        trace := trace st |}).

Definition INDEX_NAME : jsstring := Eval vm_compute in str "longevity-knowledge".

(** [createEmbedding]: a value without a [substring] method raises a
    TypeError at the cache key. *)
Definition createEmbedding (ext : Externals) (text : jsval) : M embedding :=
  match text with
  | JString t =>
      let cacheKey := str "emb_" ++ substring0 100 t in
      cached <- cache_get cacheKey ;;
      match cached with
      | Some e => ret e
      | None =>
          e <- call (EmbeddingsCreate t) (fun h => embeddings_create ext h t) ;;
          _ <- cache_set cacheKey e ;;
          ret e
      end
  | _ => throw TypeError
  end.

Definition format_match (ext : Externals) (m : Match) : SearchResult :=
  {| id := match_id m;
     score := match_score m;
     text := str_or (md_text (match_metadata m)) [];
     metadata := match_metadata m;
     relevance := calculateRelevance (currentYear ext) (match_score m) (match_metadata m) |}.

Definition searchLongevity (ext : Externals) (query : jsval) (topK : nat)
    (types : list jsstring) : M (list SearchResult) :=
  _ <- call (PineconeIndex INDEX_NAME)
         (fun h => if pinecone_index ext h INDEX_NAME then Some tt else None) ;;
  queryEmbedding <- createEmbedding ext query ;;
  matches <- call (IndexQuery queryEmbedding topK types)
               (fun h => index_query ext h queryEmbedding topK types) ;;
  ret (format_match ext <$> matches).

Module Answer.
Record t := {
  query : jsval;
  response : jsstring;
  citations : list Citation.t;
  sources : list SearchResult;
  confidence : Confidence.t;
  userProfile : jsval
}.
End Answer.

Definition RAG_TYPES : list jsstring :=
  [str "research_paper"; str "professor_expertise"; str "clinical_trial"].

Definition generateRAGResponse (ext : Externals) (userQuery userProfile : jsval)
  : M Answer.t :=
  searchResults <- searchLongevity ext userQuery 8 RAG_TYPES ;;
  let topResults := slice 0 TOP_K (sort_desc searchResults) in
  context <- of_option (formatRAGContext ext topResults userProfile) ;;
  systemPrompt <- of_option (getRAGSystemPrompt ext userProfile) ;;
  let userPrompt := getRAGUserPrompt ext userQuery context in
  generatedResponse <-
    call (ChatCompletionsCreate systemPrompt userPrompt)
         (fun h => chat_completions_create ext h systemPrompt userPrompt) ;;
  formattedResponse <- of_option (formatRAGResponse generatedResponse topResults) ;;
  ret {| Answer.query := userQuery;
         Answer.response := Formatted.text formattedResponse;
         Answer.citations := Formatted.citations formattedResponse;
         Answer.sources := topResults;
         Answer.confidence := calculateResponseConfidence topResults;
         Answer.userProfile := userProfile |}.

(** The body of a request and the reply of the handler. *)
Record Body := {
  body_query : jsval;
  body_userProfile : jsval
}.

Inductive Payload :=
| ErrorPayload (error : jsstring)
| AnswerPayload (a : Answer.t).

Record Reply := {
  status : nat;
  payload : Payload
}.

(** [handleLongevityQuery]; a profile left undefined takes the default
    [{}] of [generateRAGResponse]. *)
Definition handleLongevityQuery (ext : Externals) (isInitialized : bool) (body : Body)
  : State -> Reply * State :=
  fun st =>
    let query := body_query body in
    let userProfile := body_userProfile body in
    if negb (truthy query) then
      ({| status := 400; payload := ErrorPayload (str "Query is required") |}, st)
    else if negb isInitialized then
      ({| status := 503; payload := ErrorPayload (str "RAG system not initialized") |}, st)
    else
      let profile := match userProfile with JUndefined => JObject | p => p end in
      match generateRAGResponse ext query profile st with
      | (inr result, st') => ({| status := 200; payload := AnswerPayload result |}, st')
      | (inl _, st') =>
          ({| status := 500; payload := ErrorPayload (str "Failed to process query") |}, st')
      end.

(** ** Inputs used in the examples *)

(** A record none of whose fields is present. *)
Definition no_metadata : Metadata :=
  {| md_text := None; type := None; author := None; year := None;
     clinical_relevance := None; language := None |}.

Definition sample_metadata : Metadata :=
  {| md_text := Some (str "NAD+ increases by 65% in over-50s");
     type := Some (str "clinical_trial");
     author := None;
     year := Some 2023%Z;
     clinical_relevance := Some 0.9;
     language := None |}.

(** A search result of relevance [r] that carries no authority tag. *)
Definition plain_source (r : Q) : SearchResult :=
  {| id := str "paper-001-chunk-0"; score := r; text := [];
     metadata := no_metadata; relevance := r |}.

Definition expertise_source (r : Q) : SearchResult :=
  {| id := str "expertise-001"; score := r; text := [];
     metadata := {| md_text := None; type := Some (str "professor_expertise");
                    author := Some PROFESSOR_OH; year := Some 2024%Z;
                    clinical_relevance := Some 0.95; language := None |};
     relevance := r |}.

(** ** The confidence formula in the words of the specification *)

Definition clamp01 (q : Q) : Q := Qmin 1 (Qmax 0 q).

Definition count (n : nat) : Q := inject_Z (Z.of_nat n).

Definition mean_relevance (sources : list SearchResult) : Q :=
  sum_relevance sources / count (List.length sources).

(** [0.4*avgRelevance + 0.3*min(1, sourceCount/targetCount)
     + 0.3*min(1, authorityCount/targetCount)], clamped. *)
Definition spec_confidence (targetCount : Q) (authority : SearchResult -> bool)
    (sources : list SearchResult) : Q :=
  clamp01 (0.4 * mean_relevance sources +
           0.3 * Qmin 1 (count (List.length sources) / targetCount) +
           0.3 * Qmin 1 (count (List.length (List.filter authority sources)) / targetCount)).

(** What the source computes on a non-empty list: the counts enter the sum
    as they are. *)
Definition raw_confidence (authority : SearchResult -> bool)
    (sources : list SearchResult) : Q :=
  clamp01 (0.4 * mean_relevance sources +
           0.3 * count (List.length sources) +
           0.3 * count (List.length (List.filter authority sources))).

(** ** Texts with citation markers *)

Definition LBRACKET : N := 91.

(** The marker ["[Source " ++ ds ++ "]"]. *)
Definition marker (ds : jsstring) : jsstring := SOURCE_OPEN ++ ds ++ [RBRACKET].

(** A text made of markers, each preceded by some text, and of a tail. *)
Fixpoint text_with (segs : list (jsstring * jsstring)) (tail : jsstring) : jsstring :=
  match segs with
  | [] => tail
  | (before, ds) :: segs' => before ++ marker ds ++ text_with segs' tail
  end.

Definition citation_of (ds : jsstring) : Citation.t :=
  {| Citation.text := marker ds; Citation.sourceNumber := parseInt ds |}.

Definition all_digits (ds : jsstring) : Prop := Forall (fun c => is_digit c = true) ds.

(** Text in which no marker can start. *)
Definition bracket_free (s : jsstring) : Prop := Forall (fun c => c <> LBRACKET) s.

(** The marker numbers that a list of [sourceCount] sources can resolve. *)
Definition in_range (sourceCount : nat) (c : Citation.t) : Prop :=
  match Citation.sourceNumber c with
  | Fin k => 1 <= k <= inject_Z (Z.of_nat sourceCount)
  | _ => False
  end.

(** ** Tokens *)

(** A token: a string without the separator. *)
Definition sep_free (sep : N) (w : jsstring) : Prop := Forall (fun c => c <> sep) w.

(** ** A configuration of the collaborators used in the examples *)

Definition demo_match (i : N) (s : Q) (m : Metadata) : Match :=
  {| match_id := str "paper-00" ++ [(48 + i)%N]; match_score := s; match_metadata := m |}.

Definition demo_matches : list Match :=
  [demo_match 1 0.91 no_metadata; demo_match 2 0.84 sample_metadata;
   demo_match 3 0.80 no_metadata; demo_match 4 0.77 sample_metadata;
   demo_match 5 0.75 no_metadata; demo_match 6 0.74 sample_metadata;
   demo_match 7 0.60 no_metadata].

(** The provider embeds a text as its length and the number of earlier
    calls, so that two texts of different length get different vectors. *)
Definition demo_externals : Externals :=
  {| currentYear := 2026;
     pinecone_index := fun _ _ => true;
     embeddings_create := fun h t => Some [count (List.length t); count (List.length h)];
     index_query := fun _ _ _ _ => Some demo_matches;
     chat_completions_create :=
       fun _ _ _ => Some (str "NAD+ rises with supplementation [Source 1][Source 2].");
     formatRAGContext := fun _ _ => Some (str "RELEVANT LONGEVITY KNOWLEDGE:");
     getRAGSystemPrompt := fun _ => Some (str "You are Professor Chang-Myung Oh, MD-PhD");
     getRAGUserPrompt := fun _ context => str "User Question: " ++ context |}.

Definition initial_state : State := {| embeddingsCache := ∅; trace := [] |}.

(** Two texts of 101 and 104 code units with the same first 100. *)
Definition long_prefix : jsstring := replicate 100 97%N.
Definition text_one : jsstring := long_prefix ++ str "1".
Definition text_two : jsstring := long_prefix ++ str " two".

(** Descending order of relevance. *)
Definition by_relevance_desc (a b : SearchResult) : Prop := relevance b <= relevance a.

(** ** The clinical relevance in the words of the specification *)



(** ** Variants of a record *)

(** A copy of the record with another clinical relevance. *)
Definition with_clinical_relevance (m : Metadata) (c : option Q) : Metadata :=
  {| md_text := md_text m; type := type m; author := author m; year := year m;
     clinical_relevance := c; language := language m |}.


(** ** Counting code units and results *)

Definition hangul_count (text : jsstring) : nat := List.length (List.filter is_hangul text).

Definition visible_count (text : jsstring) : nat :=
  List.length (List.filter (fun c => negb (is_space c)) text).

Definition has_relevance (q : Q) (r : SearchResult) : bool := Qeq_bool (relevance r) q.

(** ** Decimal numerals *)

(** The digits of [n], most significant first; [fuel] bounds the number
    of digits. *)
Fixpoint decimal_digits (fuel : nat) (n : N) : jsstring :=
  match fuel with
  | O => []
  | S fuel' =>
      if (n <? 10)%N then [(48 + n)%N]
      else decimal_digits fuel' (n / 10) ++ [(48 + n mod 10)%N]
  end.

(** [String(n)], as in a template literal, for a natural number. *)
Definition decimal (n : N) : jsstring := decimal_digits (S (N.to_nat (N.log2 n))) n.

(** ** Kinds of events *)

Definition is_generation (e : event) : bool :=
  match e with
  | ChatCompletionsCreate _ _ => true
  | _ => false
  end.

Definition is_string (v : jsval) : bool :=
  match v with
  | JString _ => true
  | _ => false
  end.

(** The profile handed to the pipeline: the default [{}] of the parameter
    for an undefined one. *)
Definition profile_or_empty (p : jsval) : jsval :=
  match p with
  | JUndefined => JObject
  | _ => p
  end.

(** The cache key of a text: ["emb_" + text.substring(0, 100)]. *)
Definition cache_key (text : jsstring) : jsstring := str "emb_" ++ substring0 100 text.

(** ** Ingestion *)

(** An item of the knowledge lists built in [loadProfessorExpertise],
    [ingestResearchPapers] and [ingestClinicalTrials]. *)
Record Document := {
  doc_id : jsstring;
  doc_text : jsstring;
  doc_metadata : Metadata
}.

(** A record passed to [index.upsert]: the metadata of the document, for a
    chunk extended with [chunk_index], [total_chunks] and the id of the
    parent ([paper_id], [trial_id]), and a preview of the text. *)
Record Vector := {
  vector_id : jsstring;
  values : embedding;
  vector_metadata : Metadata;
  chunk_index : option nat;
  total_chunks : option nat;
  parent_id : option jsstring;
  preview : jsstring
}.

(** The vector store as seen by ingestion: an upsert sees the calls and
    the upserts made so far and may fail. *)
Record IngestExternals := {
  services : Externals;
  index_upsert : list event -> list Vector -> Vector -> bool
}.

Record IngestState := {
  base : State;
  upserted : list Vector
}.

Inductive ingest_error :=
| EmbeddingFailed (e : error)
| IndexFailed
| UpsertFailed (v : Vector)
| NoTermination.

Definition MI (A : Type) : Type := IngestState -> (ingest_error + A) * IngestState.

Definition iret {A} (a : A) : MI A := fun st => (inr a, st).
Definition ibind {A B} (m : MI A) (k : A -> MI B) : MI B :=
  fun st =>
    match m st with
    | (inr a, st') => k a st'
    | (inl e, st') => (inl e, st')
    end.

Notation "x <~ m ;; k" := (ibind m (fun x => k))
  (at level 100, m at next level, right associativity).

(** [await this.createEmbedding(text)] inside an ingestion. *)
Definition embed (ix : IngestExternals) (text : jsstring) : MI embedding :=
  fun st =>
    match createEmbedding (services ix) (JString text) (base st) with
    | (inr e, s) => (inr e, {| base := s; upserted := upserted st |})
    | (inl err, s) => (inl (EmbeddingFailed err), {| base := s; upserted := upserted st |})
    end.

(** [await index.upsert([v])]. *)
Definition upsert (ix : IngestExternals) (v : Vector) : MI unit :=
  fun st =>
    if index_upsert ix (trace (base st)) (upserted st) v
    then (inr tt, {| base := base st; upserted := upserted st ++ [v] |})
    else (inl (UpsertFailed v), st).

(** The record upserted for chunk [i] of a document. *)
Definition chunk_vector (doc : Document) (previewSize total i : nat)
    (chunk : jsstring) (e : embedding) : Vector :=
  {| vector_id := doc_id doc ++ str "-chunk-" ++ decimal (N.of_nat i);
     values := e;
     vector_metadata := doc_metadata doc;
     chunk_index := Some i;
     total_chunks := Some total;
     parent_id := Some (doc_id doc);
     preview := substring0 previewSize chunk |}.

(** The loop [for (let i = 0; i < chunks.length; i++)] of the two chunked
    loaders, from index [i] on; [chunks] is what is left of the array. *)
Fixpoint ingest_chunks (ix : IngestExternals) (doc : Document)
    (previewSize total i : nat) (chunks : list jsstring) : MI unit :=
  match chunks with
  | [] => iret tt
  | chunk :: rest =>
      e <~ embed ix chunk ;;
      _ <~ upsert ix (chunk_vector doc previewSize total i chunk e) ;;
      ingest_chunks ix doc previewSize total (S i) rest
  end.

(** The body of the loop over the documents of a chunked loader. *)
Definition ingest_chunked (ix : IngestExternals) (chunkSize previewSize : nat)
    (doc : Document) : MI unit :=
  match chunkDocument (doc_text doc) chunkSize with
  | Some chunks => ingest_chunks ix doc previewSize (List.length chunks) 0 chunks
  | None => fun st => (inl NoTermination, st)
  end.

(** The body of the loop of [loadProfessorExpertise]: one record for the
    whole text. *)
Definition ingest_whole (ix : IngestExternals) (doc : Document) : MI unit :=
  e <~ embed ix (doc_text doc) ;;
  upsert ix {| vector_id := doc_id doc;
               values := e;
               vector_metadata := doc_metadata doc;
               chunk_index := None;
               total_chunks := None;
               parent_id := None;
               preview := substring0 1000 (doc_text doc) |}.

(** [for (const item of items) { ... }]. *)
Fixpoint for_each {A} (body : A -> MI unit) (items : list A) : MI unit :=
  match items with
  | [] => iret tt
  | item :: rest => _ <~ body item ;; for_each body rest
  end.

(** The three loaders; the lists are the constants [expertiseData],
    [researchPapers] and [clinicalTrials] of the source. *)
Definition loadProfessorExpertise (ix : IngestExternals) (expertiseData : list Document)
  : MI unit := for_each (ingest_whole ix) expertiseData.

Definition ingestResearchPapers (ix : IngestExternals) (researchPapers : list Document)
  : MI unit := for_each (ingest_chunked ix 500 800) researchPapers.

Definition ingestClinicalTrials (ix : IngestExternals) (clinicalTrials : list Document)
  : MI unit := for_each (ingest_chunked ix 400 600) clinicalTrials.

(** [initializeRAG]: any exception is caught and gives [false]. *)
Definition initializeRAG (ix : IngestExternals)
    (expertiseData researchPapers clinicalTrials : list Document)
  : IngestState -> bool * IngestState :=
  fun st =>
    let run :=
      _ <~ (fun st =>
              let s := {| embeddingsCache := embeddingsCache (base st);
                          trace := trace (base st) ++ [PineconeIndex INDEX_NAME] |} in
              if pinecone_index (services ix) (trace (base st)) INDEX_NAME
              then (inr tt, {| base := s; upserted := upserted st |})
              else (inl IndexFailed, {| base := s; upserted := upserted st |})) ;;
      _ <~ loadProfessorExpertise ix expertiseData ;;
      _ <~ ingestResearchPapers ix researchPapers ;;
      ingestClinicalTrials ix clinicalTrials in
    match run st with
    | (inr _, st') => (true, st')
    | (inl _, st') => (false, st')
    end.

(** The number of chunks of a text, 0 when chunking does not end. *)
Definition chunk_count (chunkSize : nat) (doc : Document) : nat :=
  match chunkDocument (doc_text doc) chunkSize with
  | Some chunks => List.length chunks
  | None => 0
  end.

(** ** Configurations for the examples of ingestion and retrieval *)

(** A vector store without any record. *)
Definition empty_index_externals : Externals :=
  {| currentYear := currentYear demo_externals;
     pinecone_index := pinecone_index demo_externals;
     embeddings_create := embeddings_create demo_externals;
     index_query := fun _ _ _ _ => Some [];
     chat_completions_create := chat_completions_create demo_externals;
     formatRAGContext := formatRAGContext demo_externals;
     getRAGSystemPrompt := getRAGSystemPrompt demo_externals;
     getRAGUserPrompt := getRAGUserPrompt demo_externals |}.

(** A vector store that cannot be reached. *)
Definition unreachable_index_externals : Externals :=
  {| currentYear := currentYear demo_externals;
     pinecone_index := pinecone_index demo_externals;
     embeddings_create := embeddings_create demo_externals;
     index_query := fun _ _ _ _ => None;
     chat_completions_create := chat_completions_create demo_externals;
     formatRAGContext := formatRAGContext demo_externals;
     getRAGSystemPrompt := getRAGSystemPrompt demo_externals;
     getRAGUserPrompt := getRAGUserPrompt demo_externals |}.

Definition demo_ingest : IngestExternals :=
  {| services := demo_externals; index_upsert := fun _ _ _ => true |}.

(** The index accepts two upserts and then fails. *)
Definition flaky_ingest : IngestExternals :=
  {| services := demo_externals;
     index_upsert := fun _ done _ => (List.length done <? 2)%nat |}.

Definition initial_ingest_state : IngestState :=
  {| base := initial_state; upserted := [] |}.

Definition demo_paper : Document :=
  {| doc_id := str "paper-001";
     doc_text := str "Senolytics combined with NAD+ precursors show synergy";
     doc_metadata := sample_metadata |}.

Definition demo_expertise : Document :=
  {| doc_id := str "prof-oh-001";
     doc_text := str "NAD+ metabolism in aging";
     doc_metadata := metadata (expertise_source 0.9) |}.

(* ================================================================== *)
(** * Part II: properties                                              *)
(* ================================================================== *)

(** ** Rounding *)

Lemma rne_bounds (x : Q) : (Qfloor x <= rne x <= Qfloor x + 1)%Z.
Proof.
  unfold rne. destruct (Qcompare _ _); [destruct (Z.even _)| |]; lia.
Qed.

Lemma rne_mono (x y : Q) : x <= y -> (rne x <= rne y)%Z.
Proof.
  intros H. pose proof (Qfloor_resp_le x y H) as Hf.
  pose proof (rne_bounds x) as Hx. pose proof (rne_bounds y) as Hy.
  destruct (Z.eq_dec (Qfloor x) (Qfloor y)) as [E|N]; [|lia].
  unfold rne in *. rewrite <- E in *.
  destruct (Qcompare_spec (x - inject_Z (Qfloor x)) (1 # 2)) as [Ex|Ex|Ex];
  destruct (Qcompare_spec (y - inject_Z (Qfloor x)) (1 # 2)) as [Ey|Ey|Ey];
  try destruct (Z.even (Qfloor x)); try lia; lra.
Qed.

Lemma rne_int (n : Z) : rne (inject_Z n) = n.
Proof.
  unfold rne. rewrite Qfloor_Z.
  destruct (Qcompare_spec (inject_Z n - inject_Z n) (1 # 2)) as [E|E|E];
    [lra|reflexivity|lra].
Qed.




Lemma ulp_exp_nonneg (y : Q) : (0 <= ulp_exp y)%Z.
Proof.
  unfold ulp_exp. destruct (Z.ltb_spec (Qfloor y) (2 ^ 53)); [lia|].
  assert (Z.log2 (2 ^ 53) <= Z.log2 (Qfloor y))%Z by (apply Z.log2_le_mono; lia).
  rewrite Z.log2_pow2 in *; lia.
Qed.


Lemma pow2_pos (u : Z) : (0 <= u)%Z -> 0 < inject_Z (2 ^ u).
Proof.
  intros H. change 0 with (inject_Z 0). rewrite <- Zlt_Qlt.
  apply Z.pow_pos_nonneg; lia.
Qed.







Lemma SCALE_pos : 0 < SCALE.
Proof. apply pow2_pos. lia. Qed.


Lemma rne_comp (x y : Q) : x == y -> rne x = rne y.
Proof.
  intros E. apply Z.le_antisymm; apply rne_mono; rewrite E; apply Qle_refl.
Qed.

Lemma Qred_inject_Z (n : Z) : Qred (inject_Z n) = inject_Z n.
Proof.
  unfold Qred, inject_Z.
  pose proof (Z.ggcd_gcd n 1) as Hg. pose proof (Z.ggcd_correct_divisors n 1) as Hd.
  destruct (Z.ggcd n 1) as [g [aa bb]]. simpl in Hg. rewrite Z.gcd_1_r in Hg. subst g.
  destruct Hd as [Ha Hb]. rewrite !Z.mul_1_l in *. subst. reflexivity.
Qed.

(** A multiple of the unit of its own binade is not changed. *)
Lemma round_scaled_exact (k : Z) (y : Q) :
  y == inject_Z (k * 2 ^ ulp_exp y) -> round_scaled y == y.
Proof.
  intros E. unfold round_scaled.
  pose proof (pow2_pos _ (ulp_exp_nonneg y)) as Hp.
  assert (Hk : y / inject_Z (2 ^ ulp_exp y) == inject_Z k).
  { rewrite E at 1. rewrite inject_Z_mult. field. lra. }
  rewrite (rne_comp _ _ Hk), rne_int, <- inject_Z_mult. now symmetry.
Qed.

(** The integers below 2^53 are doubles. *)
Lemma round64_small_int (n : Z) :
  (0 <= n < 2 ^ 53)%Z -> round64 (inject_Z n) = inject_Z n.
Proof.
  intros [H0 H1]. rewrite <- (Qred_inject_Z n) at 2. unfold round64.
  apply Qred_complete.
  assert (Hle : Qle_bool 0 (inject_Z n) = true)
    by (apply Qle_bool_iff; change 0 with (inject_Z 0); now rewrite <- Zle_Qle).
  rewrite Hle. pose proof SCALE_pos as Hs.
  assert (Hy : inject_Z n * SCALE == inject_Z (n * 2 ^ 1074))
    by (unfold SCALE; now rewrite inject_Z_mult).
  assert (Hr : round_scaled (inject_Z n * SCALE) == inject_Z n * SCALE).
  { destruct (Z.eq_dec n 0%Z) as [->|Hn].
    - apply (round_scaled_exact 0%Z). rewrite Z.mul_0_l. unfold SCALE.
      change (inject_Z 0) with 0. ring.
    - assert (Hu : ulp_exp (inject_Z n * SCALE) = (Z.log2 n + 1022)%Z).
      { unfold ulp_exp. rewrite (Qfloor_comp _ _ Hy), Qfloor_Z.
        assert (2 ^ 1074 <= n * 2 ^ 1074)%Z by nia.
        assert (2 ^ 53 < 2 ^ 1074)%Z by (apply Z.pow_lt_mono_r; lia).
        destruct (Z.ltb_spec (n * 2 ^ 1074) (2 ^ 53)); [lia|].
        rewrite Z.log2_mul_pow2 by lia. lia. }
      assert (Hl : (Z.log2 n <= 52)%Z).
      { assert (Z.log2 n < 53)%Z by (apply Z.log2_lt_pow2; lia). lia. }
      pose proof (Z.log2_nonneg n).
      apply (round_scaled_exact (n * 2 ^ (52 - Z.log2 n))). rewrite Hu, Hy.
      rewrite <- Z.mul_assoc, <- Z.pow_add_r by lia.
      replace (52 - Z.log2 n + (Z.log2 n + 1022))%Z with 1074%Z by lia. reflexivity. }
  rewrite Hr. field. lra.
Qed.

(** ** Ranker *)

Lemma Qzero_false (q : Q) : Qzero q = false -> ~ q == 0.
Proof.
  unfold Qzero. intros H E. apply Qeq_bool_iff in E. congruence.
Qed.

Lemma Qzero_true (q : Q) : Qzero q = true -> q == 0.
Proof. unfold Qzero. apply Qeq_bool_iff. Qed.


Lemma getRecencyBonus_range cy y : 0 <= getRecencyBonus cy y <= 0.2.
Proof.
  unfold getRecencyBonus. destruct y as [y|]; [|lra].
  repeat (case (_ <=? _)%Z || case (_ =? _)%Z); lra.
Qed.

Lemma getAuthorityBonus_range t a : 0 <= getAuthorityBonus t a <= 0.3.
Proof.
  unfold getAuthorityBonus.
  repeat match goal with |- context [if ?b then _ else _] => destruct b end; lra.
Qed.

Lemma clinicalRelevance_range m :
  (forall c, clinical_relevance m = Some c -> 0 <= c <= 1) ->
  0 <= clinicalRelevance m <= 1.
Proof.
  intros H. unfold clinicalRelevance.
  destruct (clinical_relevance m) as [c|]; [|lra].
  destruct (Qzero c); [lra|]. now apply H.
Qed.

(** C1, as stated, fails: a similarity of -1 on a record without any
    metadata field is ranked below zero by both variants. *)
Lemma relevance_negative_at_minus_one :
  ~ (0 <= calculateRelevance 2026 (-1) no_metadata <= 1) /\
  ~ (0 <= calculateMultilingualRelevance 2026 (-1) no_metadata (str "NAD+ dosage") <= 1).
Proof.
  split; intros [H _]; vm_compute in H; apply H; reflexivity.
Qed.

(** C1, amended: for a similarity within [[0,1]] and a clinical relevance
    that is absent or within [[0,1]], whatever the other fields, both
    [calculateRelevance] and [calculateMultilingualRelevance] are within
    [[0,1]]. *)
Theorem relevance_in_unit_interval (cy : Z) (s : Q) (m : Metadata) (query : jsstring) :
  0 <= s <= 1 ->
  (forall c, clinical_relevance m = Some c -> 0 <= c <= 1) ->
  0 <= calculateRelevance cy s m <= 1 /\
  0 <= calculateMultilingualRelevance cy s m query <= 1.
Proof.
  intros Hs Hc.
  assert (Hbase : 0 <= calculateRelevance cy s m <= 0.77).
  { unfold calculateRelevance.
    pose proof (getRecencyBonus_range cy (year m)).
    pose proof (getAuthorityBonus_range (type m) (author m)).
    pose proof (clinicalRelevance_range m Hc). lra. }
  split; [lra|].
  unfold calculateMultilingualRelevance.
  set (base := calculateRelevance cy s m) in *.
  set (lb := if streq _ _ then 0.2 else 0).
  set (kb := if _ && _ then 0.1 else 0).
  assert (0 <= lb) by (subst lb; case streq; lra).
  assert (0 <= kb) by (subst kb; case andb; lra).
  split.
  - apply Q.min_glb; lra.
  - apply Q.le_min_l.
Qed.

Lemma relevance_in_unit_interval_witness :
  0 <= calculateRelevance 2026 1 sample_metadata <= 1 /\
  0 <= calculateMultilingualRelevance 2026 1 sample_metadata (str "NAD+") <= 1.
Proof.
  apply (relevance_in_unit_interval 2026 1 sample_metadata (str "NAD+")).
  - split; [vm_compute; discriminate | vm_compute; discriminate].
  - intros c H. injection H as <-. split; vm_compute; discriminate.
Defined.








(** ** Confidence *)

Lemma count_pos (n : nat) : (0 < n)%nat -> 0 < count n.
Proof.
  intros H. unfold count, Qlt. simpl. lia.
Qed.

Lemma Qzero_count (n : nat) : (0 < n)%nat -> Qzero (count n) = false.
Proof.
  intros H. unfold Qzero. destruct (Qeq_bool (count n) 0) eqn:E; [|reflexivity].
  apply Qeq_bool_iff in E. pose proof (count_pos n H). lra.
Qed.

Lemma clamp01_range (q : Q) : 0 <= clamp01 q <= 1.
Proof.
  unfold clamp01. split.
  - apply Q.min_glb; [lra | apply Q.le_max_l].
  - apply Q.le_min_l.
Qed.

(** On a non-empty list the shared computation is finite and is
    [raw_confidence]. *)
Lemma confidence_of_nonempty (authority : SearchResult -> bool) (sources : list SearchResult) :
  sources <> [] ->
  exists q,
    confidence_of (jsdiv (Fin (sum_relevance sources)) (num (List.length sources)))
      (List.length sources) (List.length (List.filter authority sources)) = Fin q /\
    q == raw_confidence authority sources.
Proof.
  intros Hne.
  assert (Hlen : (0 < List.length sources)%nat) by (destruct sources; [congruence | simpl; lia]).
  unfold confidence_of, jsdiv, num. fold (count (List.length sources)).
  rewrite (Qzero_count _ Hlen). cbn [jsmul jsadd Math_max Math_min].
  eexists. split; [reflexivity|].
  unfold raw_confidence, clamp01, mean_relevance, count.
  apply Q.min_compat; [reflexivity|]. apply Q.max_compat; [reflexivity|]. ring.
Qed.

(** C2, as stated, fails for every target count: two sources of relevance
    0.5 without authority tag get 0.8, and the formula of the specification
    gives at most 0.5. *)
Lemma confidence_formula_differs :
  ~ exists targetCount : Q,
      0 < targetCount /\
      forall sources, sources <> [] ->
        exists q, Confidence.score (calculateResponseConfidence sources) = Fin q /\
                  q == spec_confidence targetCount is_authority sources.
Proof.
  intros (t & Ht & H).
  destruct (H [plain_source 0.5; plain_source 0.5]) as (q & Hq & E); [discriminate|].
  vm_compute in Hq. injection Hq as <-.
  unfold spec_confidence, clamp01 in E.
  change (List.filter is_authority [plain_source 0.5; plain_source 0.5]) with (@nil SearchResult) in E.
  change (mean_relevance [plain_source 0.5; plain_source 0.5]) with ((0 + 0.5 + 0.5) / count 2) in E.
  change (List.length (@nil SearchResult)) with 0%nat in E.
  change (List.length [plain_source 0.5; plain_source 0.5]) with 2%nat in E.
  set (a := Qmin 1 (count 2 / t)) in E.
  set (b := Qmin 1 (count 0 / t)) in E.
  assert (Ha : a <= 1) by apply Q.le_min_l.
  assert (Hb : b <= 0).
  { subst b. apply Qle_trans with (count 0 / t); [apply Q.le_min_r|].
    unfold count, Qdiv. simpl. rewrite Qmult_0_l. lra. }
  set (x := 0.4 * ((0 + 0.5 + 0.5) / count 2) + 0.3 * a + 0.3 * b) in E.
  assert (Hx : x <= 0.5).
  { subst x. assert (Hm : (0 + 0.5 + 0.5) / count 2 == 0.5) by reflexivity.
    rewrite Hm. lra. }
  assert (Hmin : Qmin 1 (Qmax 0 x) <= Qmax 0 x) by apply Q.le_min_r.
  assert (Hmax : Qmax 0 x <= 0.5) by (apply Q.max_lub; lra).
  assert (Hq : (8 # 10) == 0.8) by reflexivity.
  lra.
Qed.

(** C2, amended: on a non-empty list the confidence is
    [0.4*avgRelevance + 0.3*sourceCount + 0.3*authorityCount] clamped to
    [[0,1]]: the two counts are not divided by a target count.  The Gemini
    variant differs only in which sources count as authority. *)
Theorem confidence_is_raw_weighted_sum (sources : list SearchResult) :
  sources <> [] ->
  (exists q, Confidence.score (calculateResponseConfidence sources) = Fin q /\
             q == raw_confidence is_authority sources /\ 0 <= q <= 1) /\
  (exists q, Confidence.score (calculateGeminiConfidence sources) = Fin q /\
             q == raw_confidence is_gemini_authority sources /\ 0 <= q <= 1).
Proof.
  intros Hne. split.
  - destruct (confidence_of_nonempty is_authority sources Hne) as (q & Hq & E).
    exists q. split; [exact Hq|]. split; [exact E|].
    rewrite E. apply clamp01_range.
  - destruct (confidence_of_nonempty is_gemini_authority sources Hne) as (q & Hq & E).
    exists q. split; [exact Hq|]. split; [exact E|].
    rewrite E. apply clamp01_range.
Qed.

Lemma confidence_is_raw_weighted_sum_witness :
  exists q, Confidence.score
              (calculateResponseConfidence [expertise_source 0.9; plain_source 0.4]) = Fin q /\
            q == raw_confidence is_authority [expertise_source 0.9; plain_source 0.4] /\
            0 <= q <= 1.
Proof.
  apply (confidence_is_raw_weighted_sum [expertise_source 0.9; plain_source 0.4]).
  discriminate.
Defined.

(** C7 fails on the code at the empty list: the average is [0/0], the
    clamp lets NaN through, and the score is NaN, outside [[0,1]]; the
    level is then "Low". *)
Theorem confidence_of_no_sources_is_NaN :
  Confidence.score (calculateResponseConfidence []) = NaN /\
  Confidence.relevance_avg (calculateResponseConfidence []) = NaN /\
  Confidence.level (calculateResponseConfidence []) = str "Low" /\
  ~ in_unit (Confidence.score (calculateResponseConfidence [])).
Proof.
  repeat split. intros H. exact H.
Qed.

(** ** Citation extraction *)

Lemma starts_with_app (p s : jsstring) : starts_with p (p ++ s) = true.
Proof.
  induction p as [|a p IH]; simpl; [reflexivity|].
  rewrite N.eqb_refl. exact IH.
Qed.

Lemma no_match_without_bracket (c : N) (s : jsstring) :
  c <> LBRACKET -> match_citation_at (c :: s) = None.
Proof.
  intros Hc. unfold match_citation_at.
  change SOURCE_OPEN with (LBRACKET :: str "Source ").
  cbn [starts_with].
  destruct (N.eqb_spec LBRACKET c) as [E|_]; [congruence|reflexivity].
Qed.

Lemma span_digits_app (ds r : jsstring) (c : N) :
  all_digits ds -> is_digit c = false ->
  span_digits (ds ++ c :: r) = (ds, c :: r).
Proof.
  intros Hds Hc. induction Hds as [|d ds Hd _ IH]; simpl.
  - now rewrite Hc.
  - now rewrite Hd, IH.
Qed.

Lemma span_digits_spec (s ds r : jsstring) :
  span_digits s = (ds, r) -> all_digits ds /\ s = ds ++ r.
Proof.
  revert ds r. induction s as [|c s IH]; intros ds r; simpl.
  - intros [= <- <-]. split; [constructor|reflexivity].
  - destruct (is_digit c) eqn:Hc.
    + destruct (span_digits s) as [ds' r'] eqn:E. intros [= <- <-].
      destruct (IH ds' r' eq_refl) as [Hd ->].
      split; [constructor; assumption|reflexivity].
    + intros [= <- <-]. split; [constructor|reflexivity].
Qed.

Lemma match_citation_at_marker (ds rest : jsstring) :
  ds <> [] -> all_digits ds ->
  match_citation_at (marker ds ++ rest) = Some (marker ds).
Proof.
  intros Hne Hds.
  assert (E : marker ds ++ rest = SOURCE_OPEN ++ (ds ++ RBRACKET :: rest))
    by (unfold marker; now rewrite <- !app_assoc).
  rewrite E. unfold match_citation_at, marker.
  rewrite starts_with_app, drop_app_length.
  rewrite (span_digits_app ds rest RBRACKET Hds) by reflexivity.
  destruct ds as [|d ds']; [congruence|].
  now rewrite N.eqb_refl.
Qed.

(** A match has the shape of a marker with at least one digit. *)
Lemma match_citation_at_shape (s m : jsstring) :
  match_citation_at s = Some m ->
  exists ds, m = marker ds /\ ds <> [] /\ all_digits ds.
Proof.
  unfold match_citation_at. destruct (starts_with SOURCE_OPEN s); [|discriminate].
  destruct (span_digits _) as [ds r] eqn:E.
  destruct ds as [|d ds']; [discriminate|].
  destruct r as [|c r']; [discriminate|].
  destruct (c =? RBRACKET)%N; [|discriminate].
  intros [= <-]. exists (d :: ds'). split; [reflexivity|]. split; [discriminate|].
  now apply span_digits_spec in E.
Qed.

Lemma match_all_skip (a b : jsstring) :
  match_all (List.length a) (a ++ b) = match_all 0 b.
Proof.
  induction a as [|c a IH]; simpl; [reflexivity|exact IH].
Qed.

Lemma match_all_bracket_free (before s : jsstring) :
  bracket_free before -> match_all 0 (before ++ s) = match_all 0 s.
Proof.
  intros H. induction H as [|c before Hc _ IH]; [reflexivity|].
  cbn [app match_all]. now rewrite (no_match_without_bracket c _ Hc).
Qed.

Lemma match_all_marker (ds rest : jsstring) :
  ds <> [] -> all_digits ds ->
  match_all 0 (marker ds ++ rest) = marker ds :: match_all 0 rest.
Proof.
  intros Hne Hds.
  pose proof (match_citation_at_marker ds rest Hne Hds) as Hm.
  change (marker ds) with (LBRACKET :: (str "Source " ++ ds ++ [RBRACKET])) in *.
  cbn [app] in *. cbn [match_all]. rewrite Hm. f_equal.
  cbn [List.length]. rewrite Nat.sub_succ, Nat.sub_0_r. apply match_all_skip.
Qed.

Lemma first_digits_marker (ds : jsstring) :
  ds <> [] -> all_digits ds -> first_digits (marker ds) = Some ds.
Proof.
  intros Hne Hds. destruct ds as [|d ds']; [congruence|].
  change (marker (d :: ds')) with (str "[Source " ++ (d :: ds') ++ [RBRACKET]).
  cbn -[span_digits]. inversion Hds as [|? ? Hd Hds']; subst. rewrite Hd.
  change (d :: ds' ++ [RBRACKET]) with ((d :: ds') ++ RBRACKET :: []).
  now rewrite (span_digits_app (d :: ds') [] RBRACKET Hds).
Qed.

Lemma match_all_markers (k : nat) (s : jsstring) :
  Forall (fun m => exists ds, m = marker ds /\ ds <> [] /\ all_digits ds) (match_all k s).
Proof.
  revert k. induction s as [|c s IH]; intros k; simpl; [constructor|].
  destruct k; [|apply IH].
  destruct (match_citation_at (c :: s)) as [m|] eqn:E; [|apply IH].
  constructor; [|apply IH]. now apply match_citation_at_shape in E.
Qed.

(** The extraction never raises: each match contains digits. *)
Lemma extractCitations_total (text : jsstring) : is_Some (extractCitations text).
Proof.
  unfold extractCitations. apply mapM_is_Some.
  eapply Forall_impl; [apply match_all_markers|].
  intros m (ds & -> & Hne & Hds). unfold compose.
  rewrite (first_digits_marker ds Hne Hds). cbn [mbind option_bind]. eauto.
Qed.

Lemma match_all_text_with (segs : list (jsstring * jsstring)) (tail : jsstring) :
  Forall (fun seg => bracket_free seg.1 /\ seg.2 <> [] /\ all_digits seg.2) segs ->
  bracket_free tail ->
  match_all 0 (text_with segs tail) = (fun seg => marker seg.2) <$> segs.
Proof.
  intros Hsegs Htail. induction Hsegs as [|[before ds] segs (Hb & Hne & Hds) _ IH].
  - simpl. rewrite <- (app_nil_r tail).
    now rewrite (match_all_bracket_free tail [] Htail).
  - cbn [text_with fmap list_fmap]. simpl in Hb, Hne, Hds.
    rewrite (match_all_bracket_free _ _ Hb).
    rewrite (match_all_marker ds _ Hne Hds). now rewrite IH.
Qed.

Lemma starts_with_split (p s : jsstring) :
  starts_with p s = true -> s = p ++ drop (List.length p) s.
Proof.
  revert s. induction p as [|a p IH]; intros s H; [reflexivity|].
  destruct s as [|b s]; [discriminate|]. simpl in H.
  apply andb_true_iff in H as [Hab H]. apply N.eqb_eq in Hab as ->.
  simpl. f_equal. now apply IH.
Qed.

Lemma match_citation_at_prefix (s m : jsstring) :
  match_citation_at s = Some m -> exists r, s = m ++ r.
Proof.
  unfold match_citation_at.
  destruct (starts_with SOURCE_OPEN s) eqn:Hp; [|discriminate].
  destruct (span_digits _) as [ds r] eqn:E.
  destruct ds as [|d ds']; [discriminate|].
  destruct r as [|c r']; [discriminate|].
  destruct (N.eqb_spec c RBRACKET) as [->|]; [|discriminate].
  intros [= <-]. exists r'.
  apply starts_with_split in Hp. apply span_digits_spec in E as [_ E].
  rewrite E in Hp. rewrite Hp. unfold SOURCE_OPEN. cbn [app].
  now rewrite <- app_assoc.
Qed.

Lemma includes_prefix (m r : jsstring) : includes m (m ++ r) = true.
Proof.
  destruct m as [|a m]; [destruct r; reflexivity|].
  cbn [app includes]. change (a :: m ++ r) with ((a :: m) ++ r).
  now rewrite starts_with_app.
Qed.

Lemma includes_cons (m s : jsstring) (c : N) :
  includes m s = true -> includes m (c :: s) = true.
Proof.
  intros H. cbn [includes]. rewrite H. apply orb_true_r.
Qed.

Lemma match_all_occur (k : nat) (s : jsstring) :
  Forall (fun m => includes m s = true) (match_all k s) /\
  (10 * List.length (match_all k s) + k <= List.length s + k)%nat /\
  (k <= List.length s -> 10 * List.length (match_all k s) + k <= List.length s)%nat.
Proof.
  revert k. induction s as [|c s IH]; intros k.
  - simpl. repeat split; [constructor|lia|lia].
  - cbn [match_all]. destruct k as [|k].
    + destruct (match_citation_at (c :: s)) as [m|] eqn:E.
      * destruct (match_citation_at_prefix _ _ E) as [r Hr].
        destruct (match_citation_at_shape _ _ E) as (ds & -> & Hne & _).
        destruct (IH (List.length (marker ds) - 1)%nat) as (Hinc & _ & Hlen).
        assert (Hm : (10 <= List.length (marker ds))%nat).
        { unfold marker. rewrite !length_app. destruct ds; [congruence|].
          change (List.length SOURCE_OPEN) with 8%nat. simpl. lia. }
        assert (Hs : (List.length (marker ds) <= List.length (c :: s))%nat)
          by (rewrite Hr, length_app; lia).
        cbn [List.length] in *.
        repeat split.
        -- constructor; [rewrite Hr; apply includes_prefix|].
           eapply Forall_impl; [exact Hinc|]. intros m'. apply includes_cons.
        -- specialize (Hlen ltac:(lia)). lia.
        -- intros _. specialize (Hlen ltac:(lia)). lia.
      * destruct (IH 0%nat) as (Hinc & _ & Hlen). cbn [List.length].
        repeat split.
        -- eapply Forall_impl; [exact Hinc|]. intros m'. apply includes_cons.
        -- specialize (Hlen ltac:(lia)). lia.
        -- intros _. specialize (Hlen ltac:(lia)). lia.
    + destruct (IH k) as (Hinc & Hw & Hlen). cbn [List.length].
      repeat split.
      * eapply Forall_impl; [exact Hinc|]. intros m'. apply includes_cons.
      * lia.
      * intros Hk. specialize (Hlen ltac:(lia)). lia.
Qed.

Lemma digit_is_not_bracket (c : N) : is_digit c = true -> c <> LBRACKET.
Proof.
  unfold is_digit, LBRACKET. intros H. apply andb_true_iff in H as [_ H].
  apply N.leb_le in H. lia.
Qed.

(** After its first code unit a marker holds no opening bracket. *)
Lemma marker_tail_bracket_free (ds : jsstring) :
  all_digits ds ->
  exists tl, marker ds = LBRACKET :: tl /\ bracket_free tl.
Proof.
  intros Hds. exists (str "Source " ++ ds ++ [RBRACKET]). split; [reflexivity|].
  unfold bracket_free. apply Forall_app. split.
  - repeat constructor; discriminate.
  - apply Forall_app. split.
    + eapply Forall_impl; [exact Hds|]. intros c. apply digit_is_not_bracket.
    + repeat constructor. discriminate.
Qed.

Lemma bracket_free_prefix (tl s r r' : jsstring) :
  bracket_free tl -> s ++ LBRACKET :: r = tl ++ r' -> exists t, s = tl ++ t.
Proof.
  intros Htl. revert s. induction Htl as [|a tl Ha _ IH]; intros s E.
  - now exists s.
  - destruct s as [|b s].
    + simpl in E. injection E as E _. congruence.
    + simpl in E. injection E as -> E. destruct (IH s E) as [t ->]. now exists t.
Qed.

Lemma match_citation_at_extend (s r m : jsstring) :
  match_citation_at s = Some m -> match_citation_at (s ++ r) = Some m.
Proof.
  intros H. destruct (match_citation_at_shape _ _ H) as (ds & -> & Hne & Hds).
  destruct (match_citation_at_prefix _ _ H) as [r0 ->].
  rewrite <- app_assoc. now apply match_citation_at_marker.
Qed.

(** A match that starts before an opening bracket ends before it. *)
Lemma match_citation_at_before_bracket (c : N) (s r m : jsstring) :
  match_citation_at ((c :: s) ++ LBRACKET :: r) = Some m ->
  match_citation_at (c :: s) = Some m.
Proof.
  intros H. destruct (match_citation_at_shape _ _ H) as (ds & -> & Hne & Hds).
  destruct (match_citation_at_prefix _ _ H) as [r' E].
  destruct (marker_tail_bracket_free ds Hds) as (tl & Em & Htl).
  rewrite Em in E. simpl in E. injection E as -> E.
  destruct (bracket_free_prefix tl s r r' Htl E) as [t ->].
  change (LBRACKET :: tl ++ t) with ((LBRACKET :: tl) ++ t). rewrite <- Em.
  now apply match_citation_at_marker.
Qed.

(** The matches of a text cut at a marker: those before it, the marker,
    those after it. *)
Lemma match_all_split (ds after : jsstring) :
  ds <> [] -> all_digits ds ->
  forall (before : jsstring) (k : nat),
    (k <= List.length before)%nat ->
    match_all k (before ++ marker ds ++ after) =
    match_all k before ++ marker ds :: match_all 0 after.
Proof.
  intros Hne Hds. induction before as [|c before IH]; intros k Hk.
  - simpl in Hk. assert (k = 0%nat) as -> by lia.
    simpl. now apply match_all_marker.
  - destruct k as [|k].
    + change ((c :: before) ++ marker ds ++ after)
        with (c :: (before ++ marker ds ++ after)).
      cbn [match_all].
      change (c :: (before ++ marker ds ++ after))
        with ((c :: before) ++ marker ds ++ after).
      destruct (match_citation_at (c :: before)) as [m|] eqn:E.
      * rewrite (match_citation_at_extend _ (marker ds ++ after) _ E).
        destruct (match_citation_at_prefix _ _ E) as [r0 Er].
        assert (Hm : (List.length m <= S (List.length before))%nat).
        { apply (f_equal (@List.length N)) in Er. rewrite length_app in Er.
          simpl in Er. lia. }
        rewrite IH by lia. reflexivity.
      * destruct (match_citation_at ((c :: before) ++ marker ds ++ after)) as [m|] eqn:E'.
        -- destruct (marker_tail_bracket_free ds Hds) as (tl & Em & _).
           rewrite Em in E'. simpl in E'.
           change (c :: before ++ LBRACKET :: tl ++ after)
             with ((c :: before) ++ LBRACKET :: (tl ++ after)) in E'.
           apply match_citation_at_before_bracket in E'. congruence.
        -- apply IH. lia.
    + cbn [app match_all]. apply IH. simpl in Hk. lia.
Qed.

(** C3, as stated, fails: with a single source, the marker [[Source 9]] is
    extracted although 9 is outside [[1,1]]. *)
Lemma out_of_range_marker_is_kept :
  Formatted.citations <$>
    formatRAGResponse (str "NAD+ rises [Source 9], see also [Source 1].") [plain_source 0.5]
  = Some [citation_of (str "9"); citation_of (str "1")] /\
  Citation.sourceNumber (citation_of (str "9")) = Fin 9 /\
  ~ in_range (List.length [plain_source 0.5]) (citation_of (str "9")).
Proof.
  split; [vm_compute; reflexivity|]. split; [vm_compute; reflexivity|].
  unfold in_range. vm_compute. intros [_ H]. now apply H.
Qed.

(** C3, amended: formatting never fails, and the citations are exactly
    the markers of the text, in their order, whatever the number of
    sources: the citations of a text cut at a marker are those of what
    precedes it, the marker, and those of what follows it; every citation
    is a marker that occurs in the text; the number of a citation is what
    [parseInt] makes of its digits, the number written when this is below
    2^53.  No marker is dropped for being out of range. *)
Theorem citations_are_all_markers
    (before ds after : jsstring) (sources : list SearchResult) :
  ds <> [] -> all_digits ds ->
  (forall text, is_Some (formatRAGResponse text sources)) /\
  (exists cs1 cs2,
     extractCitations before = Some cs1 /\
     extractCitations after = Some cs2 /\
     formatRAGResponse (before ++ marker ds ++ after) sources =
       Some {| Formatted.text := before ++ marker ds ++ after;
               Formatted.citations := cs1 ++ citation_of ds :: cs2;
               Formatted.sourceCount := List.length sources |}) /\
  (forall text cs,
     extractCitations text = Some cs ->
     Forall (fun c => exists ds', ds' <> [] /\ all_digits ds' /\
                                  c = citation_of ds' /\
                                  includes (marker ds') text = true) cs) /\
  ((digits_value ds < 2 ^ 53)%N ->
   Citation.sourceNumber (citation_of ds) = Fin (inject_Z (Z.of_N (digits_value ds)))).
Proof.
  intros Hne Hds. repeat split.
  - intros text. unfold formatRAGResponse.
    destruct (extractCitations_total text) as [cs ->]. simpl. eauto.
  - destruct (extractCitations_total before) as [cs1 H1].
    destruct (extractCitations_total after) as [cs2 H2].
    exists cs1, cs2. split; [exact H1|]. split; [exact H2|].
    unfold formatRAGResponse.
    assert (E : extractCitations (before ++ marker ds ++ after)
                = Some (cs1 ++ citation_of ds :: cs2)).
    { unfold extractCitations in *.
      rewrite (match_all_split ds after Hne Hds before 0) by lia.
      apply mapM_Some. apply mapM_Some in H1, H2.
      apply Forall2_app; [exact H1|]. constructor; [|exact H2].
      now rewrite (first_digits_marker ds Hne Hds). }
    rewrite E. reflexivity.
  - intros text cs H. unfold extractCitations in H. apply mapM_Some in H.
    destruct (match_all_occur 0 text) as (Hinc & _).
    pose proof (match_all_markers 0 text) as Hshape.
    induction H as [|m c ms cs Hmc _ IH]; [constructor|].
    inversion Hinc; inversion Hshape; subst.
    constructor; [|now apply IH].
    match goal with
    | Hs : (exists d, m = marker d /\ _) |- _ => destruct Hs as (ds' & Em & Hne' & Hds')
    end.
    subst m.
    rewrite (first_digits_marker ds' Hne' Hds') in Hmc. simpl in Hmc.
    injection Hmc as <-. exists ds'. auto.
  - intros Hv. unfold citation_of, parseInt. cbn [Citation.sourceNumber].
    destruct ds as [|d ds']; [congruence|].
    set (v := digits_value (d :: ds')) in *.
    assert (Hz : (0 <= Z.of_N v < 2 ^ 53)%Z).
    { split; [lia|]. change (2 ^ 53)%Z with (Z.of_N (2 ^ 53)). lia. }
    assert (Ho : Qle_bool OVERFLOW (inject_Z (Z.of_N v)) = false).
    { destruct (Qle_bool OVERFLOW (inject_Z (Z.of_N v))) eqn:B; [|reflexivity].
      apply Qle_bool_iff in B. unfold OVERFLOW in B. rewrite <- Zle_Qle in B.
      assert (2 ^ 53 < 2 ^ 1024 - 2 ^ 970)%Z by (vm_compute; reflexivity). lia. }
    rewrite Ho. now rewrite round64_small_int.
Qed.

Lemma citations_are_all_markers_witness :
  exists cs1 cs2,
    extractCitations (str "See [1] and ") = Some cs1 /\
    extractCitations (str " or [Source 3].") = Some cs2 /\
    formatRAGResponse (str "See [1] and " ++ marker (str "17") ++ str " or [Source 3].") [] =
      Some {| Formatted.text := str "See [1] and " ++ marker (str "17") ++ str " or [Source 3].";
              Formatted.citations := cs1 ++ citation_of (str "17") :: cs2;
              Formatted.sourceCount := 0 |}.
Proof.
  refine (proj1 (proj2 (citations_are_all_markers
                          (str "See [1] and ") (str "17") (str " or [Source 3].") [] _ _))).
  - discriminate.
  - repeat constructor.
Defined.

(** ** Chunking *)

Lemma split_not_nil (sep : N) (s : jsstring) : split sep s <> [].
Proof.
  destruct s as [|c s]; simpl; [discriminate|].
  destruct (c =? sep)%N; [discriminate|].
  destruct (split sep s); discriminate.
Qed.

Lemma join_split (sep : N) (s : jsstring) : join sep (split sep s) = s.
Proof.
  induction s as [|c s IH]; [reflexivity|]. simpl.
  destruct (N.eqb_spec c sep) as [->|_].
  - pose proof (split_not_nil sep s). destruct (split sep s) as [|w ws]; [congruence|].
    cbn [join app]. cbn [join] in IH. now rewrite IH.
  - pose proof (split_not_nil sep s). destruct (split sep s) as [|w ws]; [congruence|].
    destruct ws as [|w' ws]; simpl in *; now rewrite IH.
Qed.

Lemma split_sep_free (sep : N) (s : jsstring) : Forall (sep_free sep) (split sep s).
Proof.
  induction s as [|c s IH]; simpl.
  - repeat constructor.
  - destruct (N.eqb_spec c sep) as [->|Hc].
    + constructor; [constructor|exact IH].
    + destruct (split sep s) as [|w ws]; [repeat constructor; assumption|].
      inversion IH; subst. constructor; [constructor|]; assumption.
Qed.

Lemma split_token (sep : N) (w : jsstring) : sep_free sep w -> split sep w = [w].
Proof.
  intros H. induction H as [|c w Hc _ IH]; [reflexivity|]. simpl.
  destruct (N.eqb_spec c sep); [congruence|]. now rewrite IH.
Qed.

Lemma split_app (sep : N) (w r : jsstring) :
  sep_free sep w -> split sep (w ++ sep :: r) = w :: split sep r.
Proof.
  intros H. induction H as [|c w Hc _ IH]; simpl.
  - now rewrite N.eqb_refl.
  - destruct (N.eqb_spec c sep); [congruence|]. now rewrite IH.
Qed.

Lemma split_join (sep : N) (ws : list jsstring) :
  ws <> [] -> Forall (sep_free sep) ws -> split sep (join sep ws) = ws.
Proof.
  intros Hne H. induction H as [|w ws Hw Hws IH]; [congruence|].
  destruct ws as [|w' ws].
  - simpl. now apply split_token.
  - change (join sep (w :: w' :: ws)) with (w ++ sep :: join sep (w' :: ws)).
    rewrite (split_app sep w _ Hw). f_equal. apply IH. discriminate.
Qed.

Lemma join_app (sep : N) (a b : list jsstring) :
  a <> [] -> b <> [] -> join sep (a ++ b) = join sep a ++ sep :: join sep b.
Proof.
  intros Ha Hb. induction a as [|w a IH]; [congruence|].
  destruct a as [|w' a].
  - destruct b; [congruence|]. reflexivity.
  - change (join sep ((w :: w' :: a) ++ b)) with (w ++ sep :: join sep ((w' :: a) ++ b)).
    rewrite IH by discriminate.
    change (join sep (w :: w' :: a)) with (w ++ sep :: join sep (w' :: a)).
    now rewrite <- app_assoc.
Qed.

Lemma concat_not_nil {A} (groups : list (list A)) :
  groups <> [] -> Forall (fun g => (1 <= List.length g)%nat) groups -> concat groups <> [].
Proof.
  intros Hne H. destruct H as [|g groups Hg _]; [congruence|].
  destruct g; simpl in *; [lia|discriminate].
Qed.

Lemma join_concat (sep : N) (groups : list (list jsstring)) :
  Forall (fun g => (1 <= List.length g)%nat) groups ->
  join sep (join sep <$> groups) = join sep (concat groups).
Proof.
  intros H. induction H as [|g groups Hg Hgs IH]; [reflexivity|].
  destruct groups as [|g' groups].
  - simpl. now rewrite app_nil_r.
  - change (join sep (join sep <$> g :: g' :: groups))
      with (join sep g ++ sep :: join sep (join sep <$> g' :: groups)).
    rewrite IH.
    change (concat (g :: g' :: groups)) with (g ++ concat (g' :: groups)).
    rewrite join_app; [reflexivity| |].
    + destruct g; simpl in *; [lia|discriminate].
    + apply concat_not_nil; [discriminate|assumption].
Qed.

(** The loop cuts [words], from index [i] on, into consecutive groups of
    [chunkSize] words, the last one possibly shorter, and it ends within
    [words.length - i] rounds. *)
Lemma chunk_loop_groups (words : list jsstring) (c : nat) :
  (0 < c)%nat ->
  forall fuel i acc,
    (List.length words - i <= fuel)%nat ->
    exists groups,
      chunk_loop fuel words c i acc = Some (acc ++ (join SPACE <$> groups)) /\
      concat groups = drop i words /\
      Forall (fun g => (1 <= List.length g <= c)%nat) groups /\
      (forall k g, groups !! k = Some g -> (S k < List.length groups)%nat ->
                   List.length g = c).
Proof.
  intros Hc. induction fuel as [|fuel IH]; intros i acc Hfuel.
  - exists []. cbn [chunk_loop].
    destruct (Nat.ltb_spec i (List.length words)); [lia|].
    rewrite app_nil_r, drop_ge by lia. repeat split; [constructor|].
    intros k g Hk. now rewrite lookup_nil in Hk.
  - cbn [chunk_loop]. destruct (Nat.ltb_spec i (List.length words)) as [Hi|Hi].
    + destruct (IH (i + c)%nat (acc ++ [join SPACE (slice i (i + c) words)]))
        as (groups & Hloop & Hcat & Hlen & Hfull); [lia|].
      assert (Hslice : slice i (i + c) words = take c (drop i words))
        by (unfold slice; f_equal; lia).
      exists (take c (drop i words) :: groups). rewrite Hloop, Hslice.
      split; [now rewrite <- app_assoc|]. split; [|split].
      * cbn [concat]. rewrite Hcat, <- (drop_drop words c i). apply take_drop.
      * constructor; [|exact Hlen]. rewrite length_take, length_drop. lia.
      * intros [|k] g Hk Hlast.
        -- injection Hk as <-. rewrite length_take, length_drop.
           assert (Hne : concat groups <> []).
           { apply concat_not_nil.
             - destruct groups; [simpl in Hlast; lia|discriminate].
             - eapply Forall_impl; [exact Hlen|]. simpl. intros; lia. }
           rewrite Hcat in Hne.
           assert ((i + c < List.length words)%nat).
           { destruct (Nat.lt_ge_cases (i + c) (List.length words)) as [|Hge]; [assumption|].
             rewrite drop_ge in Hne by lia. congruence. }
           lia.
        -- apply (Hfull k g Hk). simpl in Hlast. lia.
    + exists []. rewrite app_nil_r, drop_ge by lia. repeat split; [constructor|].
      intros k g Hk. now rewrite lookup_nil in Hk.
Qed.

(** C9, as stated, fails when white space is not a single space: the
    text "a  b" is cut in windows of two into "a " and "b", and the first
    chunk holds one word; in "a<TAB>b c" cut in windows of one, the first
    chunk holds two. *)
Lemma chunk_word_count_differs :
  chunkDocument (str "a  b") 2 = Some [str "a "; str "b"] /\
  List.length (whitespace_words (str "a ")) <> 2%nat /\
  chunkDocument [97; 9; 98; 32; 99]%N 1 = Some [[97; 9; 98]%N; [99]%N] /\
  List.length (whitespace_words [97; 9; 98]%N) <> 1%nat.
Proof.
  repeat split; vm_compute; discriminate.
Qed.

(** C9, amended: for a positive window size, chunking ends and cuts the
    text at every single space character into tokens (which may be empty
    or contain other white space): the tokens of the chunks, in order, are
    the tokens of the text, each once; every chunk but the last has
    exactly the window size of tokens, the last between one and the
    window size; and the chunks joined by spaces give back the text. *)
Theorem chunkDocument_windows (text : jsstring) (chunkSize : nat) :
  (0 < chunkSize)%nat ->
  exists chunks,
    chunkDocument text chunkSize = Some chunks /\
    concat (split SPACE <$> chunks) = split SPACE text /\
    (forall k chunk, chunks !! k = Some chunk -> (S k < List.length chunks)%nat ->
                     List.length (split SPACE chunk) = chunkSize) /\
    Forall (fun chunk => (1 <= List.length (split SPACE chunk) <= chunkSize)%nat) chunks /\
    join SPACE chunks = text.
Proof.
  intros Hc. unfold chunkDocument.
  destruct (chunk_loop_groups (split SPACE text) chunkSize Hc
              (List.length (split SPACE text)) 0%nat [])
    as (groups & Hloop & Hcat & Hlen & Hfull); [lia|].
  rewrite drop_0 in Hcat. rewrite app_nil_l in Hloop.
  assert (Hfree : Forall (Forall (sep_free SPACE)) groups).
  { pose proof (split_sep_free SPACE text) as Hs. rewrite <- Hcat in Hs.
    clear -Hs. induction groups as [|g groups IH]; [constructor|].
    cbn [concat] in Hs. apply Forall_app in Hs as [Hg Hgs].
    constructor; [exact Hg|exact (IH Hgs)]. }
  assert (Hback : split SPACE <$> (join SPACE <$> groups) = groups).
  { clear -Hlen Hfree. induction groups as [|g groups IH]; [reflexivity|].
    inversion Hlen; inversion Hfree; subst. cbn [fmap list_fmap]. f_equal.
    - apply split_join; [|assumption]. destruct g; simpl in *; [lia|discriminate].
    - now apply IH. }
  exists (join SPACE <$> groups). split; [exact Hloop|].
  rewrite Hback. split; [exact Hcat|]. split; [|split].
  - intros k chunk Hk Hlast. rewrite length_fmap in Hlast.
    rewrite list_lookup_fmap in Hk.
    destruct (groups !! k) as [g|] eqn:Hg; [|discriminate].
    injection Hk as <-.
    assert (Hin : g ∈ groups) by (apply list_elem_of_lookup; eauto).
    rewrite split_join.
    + now apply (Hfull k g).
    + rewrite Forall_forall in Hlen. specialize (Hlen g Hin).
      destruct g; simpl in *; [lia|discriminate].
    + rewrite Forall_forall in Hfree. now apply Hfree.
  - rewrite Forall_fmap. rewrite Forall_forall in *. intros g Hin. simpl.
    rewrite split_join.
    + now apply Hlen.
    + specialize (Hlen g Hin). destruct g; simpl in *; [lia|discriminate].
    + now apply Hfree.
  - rewrite join_concat.
    + rewrite Hcat. apply join_split.
    + eapply Forall_impl; [exact Hlen|]. simpl. intros; lia.
Qed.

Lemma chunkDocument_windows_witness :
  exists chunks,
    chunkDocument (str "NAD+ increases by 65% in adults") 4 = Some chunks /\
    concat (split SPACE <$> chunks) = split SPACE (str "NAD+ increases by 65% in adults") /\
    (forall k chunk, chunks !! k = Some chunk -> (S k < List.length chunks)%nat ->
                     List.length (split SPACE chunk) = 4%nat) /\
    Forall (fun chunk => (1 <= List.length (split SPACE chunk) <= 4)%nat) chunks /\
    join SPACE chunks = str "NAD+ increases by 65% in adults".
Proof.
  apply (chunkDocument_windows (str "NAD+ increases by 65% in adults") 4). lia.
Defined.

(** ** Embedding cache *)

Lemma createEmbedding_cases (ext : Externals) (text : jsstring) (st : State) :
  createEmbedding ext (JString text) st =
  match embeddingsCache st !! cache_key text with
  | Some e => (inr e, st)
  | None =>
      match embeddings_create ext (trace st) text with
      | Some e =>
          (inr e, {| embeddingsCache := <[cache_key text := e]> (embeddingsCache st);
                     trace := trace st ++ [EmbeddingsCreate text] |})
      | None =>
          (inl (ExternalError (EmbeddingsCreate text)),
           {| embeddingsCache := embeddingsCache st;
              trace := trace st ++ [EmbeddingsCreate text] |})
      end
  end.
Proof.
  unfold createEmbedding, bind, cache_get, cache_set, call, ret, throw.
  fold (cache_key text).
  destruct (embeddingsCache st !! cache_key text); [reflexivity|].
  destruct (embeddings_create ext (trace st) text); reflexivity.
Qed.

(** C8: once a text has been embedded, a different text with the same
    first 100 code units gets the embedding of the first from the cache,
    without a call to the provider: the state, and so the trace of
    external calls, is unchanged.  The embedding of the first text is the
    vector the cache held for the truncated key or, if it held none, the
    vector the provider gave for the first text, stored under that key. *)
Theorem createEmbedding_prefix_collision
    (ext : Externals) (text1 text2 : jsstring) (st st1 : State) (e1 : embedding) :
  text1 <> text2 ->
  substring0 100 text1 = substring0 100 text2 ->
  createEmbedding ext (JString text1) st = (inr e1, st1) ->
  createEmbedding ext (JString text2) st1 = (inr e1, st1) /\
  embeddingsCache st1 !! cache_key text2 = Some e1 /\
  ((embeddingsCache st !! cache_key text1 = Some e1 /\ st1 = st) \/
   (embeddingsCache st !! cache_key text1 = None /\
    embeddings_create ext (trace st) text1 = Some e1 /\
    trace st1 = trace st ++ [EmbeddingsCreate text1] /\
    embeddingsCache st1 = <[cache_key text1 := e1]> (embeddingsCache st))).
Proof.
  intros _ Hkey.
  assert (Ek : cache_key text2 = cache_key text1) by (unfold cache_key; now rewrite Hkey).
  rewrite !createEmbedding_cases, Ek.
  destruct (embeddingsCache st !! cache_key text1) as [e|] eqn:Hc.
  - intros [= <- <-]. rewrite Hc. auto.
  - destruct (embeddings_create ext (trace st) text1) as [e|] eqn:Hp; [|discriminate].
    intros [= <- <-]. cbn [embeddingsCache trace]. rewrite lookup_insert_eq.
    split; [reflexivity|]. split; [reflexivity|]. right. auto.
Qed.

Lemma createEmbedding_prefix_collision_witness :
  exists e1 st1,
    createEmbedding demo_externals (JString text_one) initial_state = (inr e1, st1) /\
    createEmbedding demo_externals (JString text_two) st1 = (inr e1, st1) /\
    embeddings_create demo_externals (trace initial_state) text_one = Some e1 /\
    embeddings_create demo_externals (trace st1) text_two <> Some e1.
Proof.
  eexists. eexists. split; [vm_compute; reflexivity|].
  split; [|split; [vm_compute; reflexivity|vm_compute; discriminate]].
  refine (proj1 (createEmbedding_prefix_collision demo_externals text_one text_two
                   initial_state _ _ _ _ _)).
  - vm_compute. discriminate.
  - vm_compute. reflexivity.
  - vm_compute. reflexivity.
Defined.

(** ** Query validation *)

(** C4, as stated, fails: [generateRAGResponse] on the empty string calls
    the index, the embedding provider, the vector store and the generator
    and returns an answer; the handler lets the number 42 through to the
    index call and answers 500 after a TypeError. *)
Lemma invalid_query_reaches_external_calls :
  (exists a st,
     generateRAGResponse demo_externals (JString []) JObject initial_state = (inr a, st) /\
     EmbeddingsCreate [] ∈ trace st /\ List.length (trace st) = 4%nat) /\
  (exists st,
     handleLongevityQuery demo_externals true
       {| body_query := JNumber (Fin 42); body_userProfile := JUndefined |} initial_state
     = ({| status := 500; payload := ErrorPayload (str "Failed to process query") |}, st) /\
     trace st = [PineconeIndex INDEX_NAME]).
Proof.
  split.
  - eexists. eexists. split; [vm_compute; reflexivity|].
    split; [|reflexivity]. apply list_elem_of_In. right. left. reflexivity.
  - eexists. split; [vm_compute; reflexivity|reflexivity].
Qed.

(** C4, amended: a request whose query is falsy (absent, null, the empty
    string, zero, NaN or false) is answered by [handleLongevityQuery]
    with status 400, "Query is required", and the state, so the trace of
    external calls, is left as it was. *)
Theorem falsy_query_rejected_before_any_call
    (ext : Externals) (isInitialized : bool) (body : Body) (st : State) :
  truthy (body_query body) = false ->
  handleLongevityQuery ext isInitialized body st =
    ({| status := 400; payload := ErrorPayload (str "Query is required") |}, st).
Proof.
  intros H. unfold handleLongevityQuery. now rewrite H.
Qed.

Lemma falsy_query_rejected_before_any_call_witness :
  handleLongevityQuery demo_externals true
    {| body_query := JString []; body_userProfile := JObject |} initial_state =
  ({| status := 400; payload := ErrorPayload (str "Query is required") |}, initial_state).
Proof.
  apply (falsy_query_rejected_before_any_call demo_externals true
           {| body_query := JString []; body_userProfile := JObject |} initial_state).
  reflexivity.
Defined.

(** ** Ranked sources *)

Lemma insert_desc_perm (x : SearchResult) (l : list SearchResult) :
  insert_desc x l ≡ₚ x :: l.
Proof.
  induction l as [|y l IH]; simpl; [reflexivity|].
  destruct (Qle_bool _ _); [reflexivity|].
  rewrite IH. apply Permutation_swap.
Qed.

Lemma sort_desc_perm (l : list SearchResult) : sort_desc l ≡ₚ l.
Proof.
  induction l as [|x l IH]; simpl; [reflexivity|].
  rewrite insert_desc_perm. now rewrite IH.
Qed.

Lemma insert_desc_sorted (x : SearchResult) (l : list SearchResult) :
  StronglySorted by_relevance_desc l -> StronglySorted by_relevance_desc (insert_desc x l).
Proof.
  induction 1 as [|y l Hl IH Hy]; simpl.
  - repeat constructor.
  - destruct (Qle_bool (relevance y - relevance x) 0) eqn:E.
    + apply Qle_bool_iff in E.
      assert (Hyx : by_relevance_desc x y) by (unfold by_relevance_desc; lra).
      constructor; [constructor; assumption|].
      constructor; [exact Hyx|].
      eapply Forall_impl; [exact Hy|]. unfold by_relevance_desc in *. simpl.
      intros z Hz. lra.
    + assert (Hxy : by_relevance_desc y x).
      { unfold by_relevance_desc.
        destruct (Qlt_le_dec 0 (relevance y - relevance x)) as [Hlt|Hle]; [lra|].
        apply Qle_bool_iff in Hle. congruence. }
      constructor; [exact IH|].
      rewrite (insert_desc_perm x l). constructor; assumption.
Qed.

Lemma sort_desc_sorted (l : list SearchResult) :
  StronglySorted by_relevance_desc (sort_desc l).
Proof.
  induction l as [|x l IH]; simpl; [constructor|]. now apply insert_desc_sorted.
Qed.

Lemma StronglySorted_take {A} (R : A -> A -> Prop) (n : nat) (l : list A) :
  StronglySorted R l -> StronglySorted R (take n l).
Proof.
  intros H. revert n. induction H as [|x l Hl IH Hx]; intros [|n]; simpl;
    try constructor.
  - apply IH.
  - apply Forall_take. exact Hx.
Qed.

(** C10: when [generateRAGResponse] returns an answer, its sources are
    the first five of the search results sorted by descending relevance:
    at most five, a prefix of the ranking, all among the search results,
    and themselves in descending order of relevance. *)
Theorem sources_are_top_ranked
    (ext : Externals) (userQuery userProfile : jsval) (st st' : State) (a : Answer.t) :
  generateRAGResponse ext userQuery userProfile st = (inr a, st') ->
  exists results st1,
    searchLongevity ext userQuery 8 RAG_TYPES st = (inr results, st1) /\
    sort_desc results ≡ₚ results /\
    StronglySorted by_relevance_desc (sort_desc results) /\
    Answer.sources a = take TOP_K (sort_desc results) /\
    (List.length (Answer.sources a) <= 5)%nat /\
    Answer.sources a `prefix_of` sort_desc results /\
    Answer.sources a ⊆ results /\
    StronglySorted by_relevance_desc (Answer.sources a).
Proof.
  unfold generateRAGResponse, bind at 1.
  destruct (searchLongevity ext userQuery 8 RAG_TYPES st) as [[e|results] st1] eqn:Hs;
    [discriminate|].
  intros H. exists results, st1. split; [reflexivity|].
  assert (Hsrc : Answer.sources a = take TOP_K (sort_desc results)).
  { revert H. unfold bind, of_option, call, ret, throw.
    destruct (formatRAGContext ext _ userProfile); [|discriminate].
    destruct (getRAGSystemPrompt ext userProfile); [|discriminate].
    destruct (chat_completions_create ext _ _ _); [|discriminate].
    destruct (formatRAGResponse _ _); [|discriminate].
    intros [= <- _]. reflexivity. }
  rewrite Hsrc. repeat split.
  - apply sort_desc_perm.
  - apply sort_desc_sorted.
  - rewrite length_take. unfold TOP_K. lia.
  - apply prefix_take.
  - intros x Hx. rewrite <- (sort_desc_perm results).
    revert Hx. apply subseteq_take.
  - apply StronglySorted_take, sort_desc_sorted.
Qed.

Lemma sources_are_top_ranked_witness :
  exists a st',
    generateRAGResponse demo_externals (JString (str "NAD+ dosage")) JObject initial_state
      = (inr a, st') /\
    List.length (Answer.sources a) = 5%nat /\
    exists results st1,
      searchLongevity demo_externals (JString (str "NAD+ dosage")) 8 RAG_TYPES initial_state
        = (inr results, st1) /\
      sort_desc results ≡ₚ results /\
      StronglySorted by_relevance_desc (sort_desc results) /\
      Answer.sources a = take TOP_K (sort_desc results) /\
      (List.length (Answer.sources a) <= 5)%nat /\
      Answer.sources a `prefix_of` sort_desc results /\
      Answer.sources a ⊆ results /\
      StronglySorted by_relevance_desc (Answer.sources a).
Proof.
  eexists. eexists. split; [vm_compute; reflexivity|]. split; [reflexivity|].
  eapply (sources_are_top_ranked demo_externals (JString (str "NAD+ dosage")) JObject
            initial_state).
  vm_compute. reflexivity.
Defined.

(** ** Traces of the source on concrete inputs *)

Example recency_steps :
  getRecencyBonus 2026 (Some 2025%Z) = 0.2 /\
  getRecencyBonus 2026 (Some 2024%Z) = 0.15 /\
  getRecencyBonus 2026 (Some 2023%Z) = 0.1 /\
  getRecencyBonus 2026 (Some 2022%Z) = 0 /\
  getRecencyBonus 2026 None = 0.
Proof. repeat split. Qed.

Example authority_levels :
  getAuthorityBonus (Some (str "professor_expertise")) None = 0.3 /\
  getAuthorityBonus (Some (str "clinical_trial")) None = 0.2 /\
  getAuthorityBonus (Some (str "research_paper")) (Some (str "Johnson, M.")) = 0.15 /\
  getAuthorityBonus (Some (str "research_paper")) None = 0 /\
  getAuthorityBonus (Some (str "research_paper")) (Some (str "Chang-Myung Oh")) = 0.3.
Proof. repeat split. Qed.

Example relevance_of_sample : calculateRelevance 2026 0.8 sample_metadata == 0.63.
Proof. reflexivity. Qed.

Example detectLanguage_threshold :
  detectLanguage [0xC7A5; 0xC218; 32; 97; 98; 99]%N = KOREAN /\
  detectLanguage [0xC7A5; 0xC218; 0xC601; 32; 97; 98; 99; 100; 101; 102; 103]%N = ENGLISH /\
  detectLanguage (str "NAD+ dosage") = ENGLISH.
Proof. repeat split. Qed.

Example extractCitations_trace :
  extractCitations (str "a [Source 12] b [Source ] [Source 3x] [Source 007][Source 5]]")
  = Some [citation_of (str "12"); citation_of (str "007"); citation_of (str "5")] /\
  Citation.sourceNumber (citation_of (str "007")) = Fin 7 /\
  parseInt (str "9007199254740993") = Fin 9007199254740992 /\
  parseInt (replicate 309 57%N) = Inf false.
Proof. repeat split; vm_compute; reflexivity. Qed.

Example chunkDocument_trace :
  chunkDocument (str "a b c d e") 2 = Some [str "a b"; str "c d"; str "e"] /\
  chunkDocument (str "") 2 = Some [[]] /\
  chunkDocument (str "a b") 0 = None.
Proof. repeat split. Qed.

Example five_sources_saturate :
  Confidence.score (calculateResponseConfidence (replicate 5 (plain_source 0.1))) = Fin 1 /\
  Confidence.level (calculateResponseConfidence (replicate 5 (plain_source 0.1))) = str "High".
Proof. split; reflexivity. Qed.

Example ranking_is_stable_and_descending :
  id <$> sort_desc [plain_source 0.2; expertise_source 0.7; plain_source 0.7; expertise_source 0.9]
  = [str "expertise-001"; str "expertise-001"; str "paper-001-chunk-0"; str "paper-001-chunk-0"].
Proof. reflexivity. Qed.

(* ================================================================== *)
(** * Part III: further properties of the source                       *)
(* ================================================================== *)

(** ** More on the ranker *)

(** X1: for a similarity of at most 1 and a clinical relevance that is
    absent or at most 1, the relevance is at most 0.77: the recency and
    authority bonuses, themselves at most 0.2 and 0.3, are weighted
    again by 0.2 and 0.1. *)
Theorem relevance_at_most_077 (cy : Z) (s : Q) (m : Metadata) :
  s <= 1 ->
  (forall c, clinical_relevance m = Some c -> c <= 1) ->
  calculateRelevance cy s m <= 0.77.
Proof.
  intros Hs Hc. unfold calculateRelevance.
  pose proof (getRecencyBonus_range cy (year m)).
  pose proof (getAuthorityBonus_range (type m) (author m)).
  assert (clinicalRelevance m <= 1).
  { unfold clinicalRelevance. destruct (clinical_relevance m) as [c|]; [|lra].
    destruct (Qzero c); [lra|]. now apply Hc. }
  lra.
Qed.

Lemma relevance_at_most_077_witness :
  calculateRelevance 2026 1 (metadata (expertise_source 0.9)) <= 0.77.
Proof.
  apply (relevance_at_most_077 2026 1 (metadata (expertise_source 0.9))).
  - vm_compute. discriminate.
  - intros c H. injection H as <-. vm_compute. discriminate.
Defined.

(** X2: a clinical relevance of 0 is scored like an absent one, as 0.5,
    so for a similarity within [[-1,1]] a record with a clinical
    relevance above 0 and at most 0.4 is ranked below the same record
    with clinical relevance 0. *)
Theorem zero_clinical_relevance_counts_as_absent (cy : Z) (s c : Q) (m : Metadata) :
  -1 <= s <= 1 -> 0 < c -> c <= 0.4 ->
  calculateRelevance cy s (with_clinical_relevance m (Some 0)) ==
    calculateRelevance cy s (with_clinical_relevance m None) /\
  calculateRelevance cy s (with_clinical_relevance m (Some c)) <
    calculateRelevance cy s (with_clinical_relevance m (Some 0)).
Proof.
  intros _ Hc0 Hc.
  assert (E0 : clinicalRelevance (with_clinical_relevance m (Some 0)) = 0.5) by reflexivity.
  assert (En : clinicalRelevance (with_clinical_relevance m None) = 0.5) by reflexivity.
  assert (Ec : clinicalRelevance (with_clinical_relevance m (Some c)) = c).
  { unfold clinicalRelevance. cbn [clinical_relevance with_clinical_relevance].
    destruct (Qzero c) eqn:E; [apply Qzero_true in E; lra|reflexivity]. }
  unfold calculateRelevance. rewrite E0, En, Ec.
  cbn [year type author with_clinical_relevance]. split; [reflexivity|lra].
Qed.

Lemma zero_clinical_relevance_counts_as_absent_witness :
  calculateRelevance 2026 0.8 (with_clinical_relevance sample_metadata (Some 0)) ==
    calculateRelevance 2026 0.8 (with_clinical_relevance sample_metadata None) /\
  calculateRelevance 2026 0.8 (with_clinical_relevance sample_metadata (Some 0.1)) <
    calculateRelevance 2026 0.8 (with_clinical_relevance sample_metadata (Some 0)).
Proof.
  apply (zero_clinical_relevance_counts_as_absent 2026 0.8 0.1 sample_metadata).
  - split; vm_compute; discriminate.
  - reflexivity.
  - vm_compute. discriminate.
Defined.

(** X3: a record whose author field contains the professor's name gets the
    authority bonus 0.3 whatever its type, and no record gets more. *)
Theorem professor_author_gets_top_authority (t a : option jsstring) :
  author_includes a PROFESSOR_OH = true ->
  getAuthorityBonus t a = 0.3 /\
  (forall t' a', getAuthorityBonus t' a' <= getAuthorityBonus t a).
Proof.
  intros H.
  assert (E : getAuthorityBonus t a = 0.3)
    by (unfold getAuthorityBonus; rewrite H; now rewrite orb_true_r).
  split; [exact E|]. intros t' a'. rewrite E. apply getAuthorityBonus_range.
Qed.

Lemma professor_author_gets_top_authority_witness :
  getAuthorityBonus (Some (str "clinical_trial")) (Some (str "Kim, J., Chang-Myung Oh")) = 0.3 /\
  (forall t' a', getAuthorityBonus t' a' <=
                 getAuthorityBonus (Some (str "clinical_trial"))
                                   (Some (str "Kim, J., Chang-Myung Oh"))).
Proof.
  apply (professor_author_gets_top_authority
           (Some (str "clinical_trial")) (Some (str "Kim, J., Chang-Myung Oh"))).
  reflexivity.
Defined.

(** X4: the multilingual relevance does not decrease when the similarity
    grows, and it is never below the base relevance capped at 1. *)
Theorem multilingual_relevance_monotone
    (cy : Z) (m : Metadata) (query : jsstring) (score_a score_b : Q) :
  score_b <= score_a ->
  calculateMultilingualRelevance cy score_b m query <=
    calculateMultilingualRelevance cy score_a m query /\
  Qmin 1 (calculateRelevance cy score_a m) <=
    calculateMultilingualRelevance cy score_a m query.
Proof.
  intros H. unfold calculateMultilingualRelevance.
  set (lb := if streq _ _ then 0.2 else 0).
  set (kb := if _ && _ then 0.1 else 0).
  assert (0 <= lb) by (subst lb; case streq; lra).
  assert (0 <= kb) by (subst kb; case andb; lra).
  assert (calculateRelevance cy score_b m <= calculateRelevance cy score_a m)
    by (unfold calculateRelevance; lra).
  split; apply Q.min_le_compat_l; lra.
Qed.

Lemma multilingual_relevance_monotone_witness :
  calculateMultilingualRelevance 2026 0.3 sample_metadata (str "NAD+") <=
    calculateMultilingualRelevance 2026 0.7 sample_metadata (str "NAD+") /\
  Qmin 1 (calculateRelevance 2026 0.7 sample_metadata) <=
    calculateMultilingualRelevance 2026 0.7 sample_metadata (str "NAD+").
Proof.
  apply (multilingual_relevance_monotone 2026 sample_metadata (str "NAD+") 0.7 0.3).
  vm_compute. discriminate.
Defined.

(** ** Language detection *)

Lemma hangul_is_visible (c : N) : is_hangul c = true -> is_space c = false.
Proof.
  unfold is_hangul, is_space. intros H.
  apply andb_true_iff in H as [H1 H2].
  apply N.leb_le in H1. apply N.leb_le in H2.
  repeat match goal with
         | |- context [(?a <=? ?b)%N] => destruct (N.leb_spec a b)
         | |- context [(?a =? ?b)%N] => destruct (N.eqb_spec a b)
         end; try reflexivity; lia.
Qed.

Lemma hangul_le_visible (text : jsstring) : (hangul_count text <= visible_count text)%nat.
Proof.
  unfold hangul_count, visible_count. induction text as [|c text IH]; simpl; [lia|].
  destruct (is_hangul c) eqn:E.
  - rewrite (hangul_is_visible c E). simpl. lia.
  - destruct (is_space c); simpl; lia.
Qed.

Lemma ratio_above_03 (k t : nat) :
  (0 < t)%nat ->
  negb (Qle_bool (inject_Z (Z.of_nat k) / inject_Z (Z.of_nat t)) 0.3) = true <->
  (3 * t < 10 * k)%nat.
Proof.
  intros Ht.
  assert (Hpos : 0 < inject_Z (Z.of_nat t)) by (unfold Qlt; simpl; lia).
  assert (Hiff : inject_Z (Z.of_nat k) / inject_Z (Z.of_nat t) <= 0.3 <->
                 (10 * k <= 3 * t)%nat).
  { split.
    - intros H.
      assert (H' : inject_Z (Z.of_nat k) <= 0.3 * inject_Z (Z.of_nat t)).
      { assert (E : inject_Z (Z.of_nat k) ==
                    inject_Z (Z.of_nat t) * (inject_Z (Z.of_nat k) / inject_Z (Z.of_nat t)))
          by (symmetry; apply Qmult_div_r; lra).
        set (d := inject_Z (Z.of_nat k) / inject_Z (Z.of_nat t)) in *.
        rewrite E. nra. }
      unfold Qle in H'. simpl in H'. lia.
    - intros H. apply Qle_shift_div_r; [exact Hpos|].
      unfold Qle. simpl. lia. }
  rewrite negb_true_iff. split.
  - intros H. destruct (Nat.lt_ge_cases (3 * t) (10 * k)) as [|Hge]; [assumption|].
    apply Hiff, Qle_bool_iff in Hge. congruence.
  - intros H. destruct (Qle_bool _ 0.3) eqn:E; [|reflexivity].
    apply Qle_bool_iff, Hiff in E. lia.
Qed.

(** X5: [detectLanguage] answers korean exactly when more than 30% of the
    code units that are not white space are Hangul syllables, that is
    when 3 * visible < 10 * hangul, and english otherwise; in particular
    on the empty text. *)
Theorem detectLanguage_korean_iff (text : jsstring) :
  (detectLanguage text = KOREAN <-> (3 * visible_count text < 10 * hangul_count text)%nat) /\
  (detectLanguage text = KOREAN \/ detectLanguage text = ENGLISH).
Proof.
  pose proof (hangul_le_visible text) as Hle.
  unfold detectLanguage. fold (visible_count text).
  unfold hangul_count in *.
  destruct (List.filter is_hangul text) as [|c cs] eqn:E.
  - simpl. split; [|now right]. split; [discriminate|lia].
  - pose proof (ratio_above_03 (List.length (c :: cs)) (visible_count text)) as Hr.
    simpl in Hle. specialize (Hr ltac:(lia)).
    destruct (negb (Qle_bool _ 0.3)).
    + split; [|now left]. split; [intros _; now apply Hr|reflexivity].
    + split; [|now right]. split; [discriminate|].
      intros H. apply Hr in H. discriminate.
Qed.

(** ** Ranking *)

Lemma filter_insert_desc (q : Q) (x : SearchResult) (l : list SearchResult) :
  List.filter (has_relevance q) (insert_desc x l) = List.filter (has_relevance q) (x :: l).
Proof.
  induction l as [|y l IH]; [reflexivity|]. cbn [insert_desc].
  destruct (Qle_bool (relevance y - relevance x) 0) eqn:E; [reflexivity|].
  cbn [List.filter] in *. rewrite IH.
  destruct (has_relevance q y) eqn:Hy, (has_relevance q x) eqn:Hx; try reflexivity.
  unfold has_relevance in *. apply Qeq_bool_iff in Hy, Hx.
  assert (Hle : relevance y - relevance x <= 0) by lra.
  apply Qle_bool_iff in Hle. congruence.
Qed.

(** X6: ranking is stable: the results of any given relevance keep, after
    the sort, the order they had before it. *)
Theorem ranking_is_stable (q : Q) (results : list SearchResult) :
  List.filter (has_relevance q) (sort_desc results) = List.filter (has_relevance q) results.
Proof.
  induction results as [|x l IH]; [reflexivity|].
  change (sort_desc (x :: l)) with (insert_desc x (sort_desc l)).
  rewrite filter_insert_desc. cbn [List.filter]. now rewrite IH.
Qed.

Lemma StronglySorted_app_order {A} (R : A -> A -> Prop) (l1 l2 : list A) :
  StronglySorted R (l1 ++ l2) -> forall x y, x ∈ l1 -> y ∈ l2 -> R x y.
Proof.
  induction l1 as [|a l1 IH]; intros H x y Hx Hy.
  - now apply elem_of_nil in Hx.
  - inversion H as [|? ? Hs Hall]; subst.
    apply elem_of_cons in Hx as [->|Hx].
    + rewrite Forall_forall in Hall. apply Hall. apply elem_of_app. now right.
    + now apply IH.
Qed.

(** X7: a result that the cut to five leaves out has a relevance that is at
    most that of every result kept. *)
Theorem discarded_results_rank_below_sources (results : list SearchResult) (x y : SearchResult) :
  x ∈ take TOP_K (sort_desc results) ->
  y ∈ drop TOP_K (sort_desc results) ->
  relevance y <= relevance x.
Proof.
  intros Hx Hy.
  apply (StronglySorted_app_order by_relevance_desc
           (take TOP_K (sort_desc results)) (drop TOP_K (sort_desc results))); try assumption.
  rewrite take_drop. apply sort_desc_sorted.
Qed.

Lemma discarded_results_rank_below_sources_witness :
  relevance (format_match demo_externals (demo_match 7 0.60 no_metadata)) <=
  relevance (format_match demo_externals (demo_match 2 0.84 sample_metadata)).
Proof.
  apply (discarded_results_rank_below_sources (format_match demo_externals <$> demo_matches)).
  - vm_compute. apply list_elem_of_In. left. reflexivity.
  - vm_compute. apply list_elem_of_In. right. left. reflexivity.
Defined.

(** ** Confidence levels *)

Lemma fold_relevance_acc (l : list SearchResult) (a : Q) :
  fold_left (fun sum s => sum + relevance s) l a == a + sum_relevance l.
Proof.
  unfold sum_relevance. revert a. induction l as [|x l IH]; intros a; simpl; [ring|].
  rewrite (IH (a + relevance x)), (IH (0 + relevance x)). ring.
Qed.

Lemma sum_relevance_cons (x : SearchResult) (l : list SearchResult) :
  sum_relevance (x :: l) == relevance x + sum_relevance l.
Proof.
  unfold sum_relevance at 1. simpl. rewrite fold_relevance_acc. ring.
Qed.

Lemma count_succ (n : nat) : count (S n) == count n + 1.
Proof.
  unfold count. rewrite Nat2Z.inj_succ, <- Z.add_1_r, inject_Z_plus. reflexivity.
Qed.

Lemma sum_relevance_lower (b : Q) (l : list SearchResult) :
  Forall (fun s => b <= relevance s) l -> b * count (List.length l) <= sum_relevance l.
Proof.
  induction 1 as [|x l Hx _ IH].
  - change (sum_relevance []) with 0. change (count (List.length (@nil SearchResult))) with 0. lra.
  - rewrite sum_relevance_cons. cbn [List.length]. rewrite count_succ. lra.
Qed.

Lemma clamp01_saturates (x : Q) : 1 <= x -> clamp01 x == 1.
Proof.
  intros H. unfold clamp01.
  rewrite (Q.max_r 0 x) by lra. apply Q.min_l. exact H.
Qed.

Lemma count_le (n m : nat) : (n <= m)%nat -> count n <= count m.
Proof.
  intros H. unfold count. rewrite <- Zle_Qle. lia.
Qed.

Lemma raw_confidence_saturates (authority : SearchResult -> bool) (sources : list SearchResult) :
  (4 <= List.length sources)%nat ->
  Forall (fun s => -0.5 <= relevance s) sources ->
  raw_confidence authority sources == 1.
Proof.
  intros Hn Hrel. unfold raw_confidence. apply clamp01_saturates.
  pose proof (sum_relevance_lower (-0.5) sources Hrel) as Hsum.
  pose proof (count_le 4 _ Hn) as Hc4.
  pose proof (count_le 0 (List.length (List.filter authority sources)) ltac:(lia)) as Ha.
  change (count 4) with 4 in Hc4. change (count 0) with 0 in Ha.
  assert (Hmean : -0.5 <= mean_relevance sources).
  { unfold mean_relevance. apply Qle_shift_div_l; lra. }
  lra.
Qed.

(** X8: with four sources or more, each of relevance at least -0.5, both
    confidence functions give the score 1 and the highest level,
    whatever the relevances and the authority tags. *)
Theorem four_sources_saturate_confidence (sources : list SearchResult) :
  (4 <= List.length sources)%nat ->
  Forall (fun s => -0.5 <= relevance s) sources ->
  (exists q, Confidence.score (calculateResponseConfidence sources) = Fin q /\ q == 1) /\
  Confidence.level (calculateResponseConfidence sources) = str "High" /\
  (exists q, Confidence.score (calculateGeminiConfidence sources) = Fin q /\ q == 1) /\
  Confidence.level (calculateGeminiConfidence sources) = LEVEL_HIGH_KO.
Proof.
  intros Hn Hrel.
  assert (Hne : sources <> []) by (destruct sources; [simpl in Hn; lia|discriminate]).
  assert (Hgt : forall q, q == 1 -> jsgt (Fin q) (Fin 0.8) = true).
  { intros q E. simpl. destruct (Qle_bool q 0.8) eqn:B; [|reflexivity].
    apply Qle_bool_iff in B. lra. }
  destruct (confidence_of_nonempty is_authority sources Hne) as (q & Hq & E).
  destruct (confidence_of_nonempty is_gemini_authority sources Hne) as (q' & Hq' & E').
  rewrite (raw_confidence_saturates is_authority _ Hn Hrel) in E.
  rewrite (raw_confidence_saturates is_gemini_authority _ Hn Hrel) in E'.
  unfold calculateResponseConfidence, calculateGeminiConfidence.
  cbn [Confidence.score Confidence.level]. rewrite Hq, Hq', (Hgt q E), (Hgt q' E').
  repeat split; eauto.
Qed.

Lemma four_sources_saturate_confidence_witness :
  Confidence.level (calculateResponseConfidence (replicate 4 (plain_source 0.1))) = str "High".
Proof.
  apply (four_sources_saturate_confidence (replicate 4 (plain_source 0.1))).
  - simpl. lia.
  - repeat constructor; vm_compute; discriminate.
Defined.

Lemma clamp01_above (x t : Q) : 0 <= t -> t < 1 -> (t < clamp01 x <-> t < x).
Proof.
  intros H0 H1. unfold clamp01.
  destruct (Q.max_spec 0 x) as [[? Hm]|[? Hm]];
  destruct (Q.min_spec 1 (Qmax 0 x)) as [[? Hn]|[? Hn]];
  rewrite Hn; rewrite ?Hm in *; lra.
Qed.

(** X9: with a single source of relevance at most 1, the level High
    requires an authority-tagged source of relevance above 0.5, and an
    authority-tagged source of relevance at least 0.51 is given the level
    High. *)
Theorem single_source_high (s : SearchResult) :
  relevance s <= 1 ->
  (Confidence.level (calculateResponseConfidence [s]) = str "High" ->
   is_authority s = true /\ 0.5 < relevance s) /\
  (is_authority s = true -> 0.51 <= relevance s ->
   Confidence.level (calculateResponseConfidence [s]) = str "High").
Proof.
  intros Hr.
  destruct (confidence_of_nonempty is_authority [s] ltac:(discriminate)) as (q & Hq & E).
  unfold calculateResponseConfidence. cbn [Confidence.level]. rewrite Hq.
  assert (Hhigh : jsgt (Fin q) (Fin 0.8) = true <-> 0.8 < q).
  { simpl. rewrite negb_true_iff. split.
    - intros B. destruct (Qlt_le_dec 0.8 q) as [|Hle]; [assumption|].
      apply Qle_bool_iff in Hle. congruence.
    - intros B. destruct (Qle_bool q 0.8) eqn:B'; [|reflexivity].
      apply Qle_bool_iff in B'. lra. }
  assert (Hlev : (if jsgt (Fin q) (Fin 0.8) then str "High"
                  else if jsgt (Fin q) (Fin 0.6) then str "Medium" else str "Low")
                 = str "High" <-> jsgt (Fin q) (Fin 0.8) = true).
  { destruct (jsgt (Fin q) (Fin 0.8)); [tauto|].
    destruct (jsgt (Fin q) (Fin 0.6)); split; discriminate. }
  rewrite Hlev, Hhigh. clear Hlev Hhigh Hq.
  unfold raw_confidence in E.
  pose proof (clamp01_above
                (0.4 * mean_relevance [s] + 0.3 * count (List.length [s]) +
                 0.3 * count (List.length (List.filter is_authority [s])))
                0.8 ltac:(lra) ltac:(lra)) as Hc.
  assert (Hmean : mean_relevance [s] == relevance s).
  { unfold mean_relevance. change (sum_relevance [s]) with (0 + relevance s).
    change (count (List.length [s])) with 1. field. }
  cbn [List.filter] in *. destruct (is_authority s).
  - change (count (List.length [s])) with 1 in *.
    split; [intros H; split; [reflexivity|lra]|intros _ H; lra].
  - change (count (List.length [s])) with 1 in *.
    change (count (List.length (@nil SearchResult))) with 0 in *.
    split; [intros H; lra|intros H; discriminate].
Qed.

Lemma single_source_high_witness :
  (Confidence.level (calculateResponseConfidence [expertise_source 0.9]) = str "High" ->
   is_authority (expertise_source 0.9) = true /\ 0.5 < relevance (expertise_source 0.9)) /\
  (is_authority (expertise_source 0.9) = true -> 0.51 <= relevance (expertise_source 0.9) ->
   Confidence.level (calculateResponseConfidence [expertise_source 0.9]) = str "High").
Proof.
  apply (single_source_high (expertise_source 0.9)). vm_compute. discriminate.
Defined.

(** ** Numbers in markers *)

Lemma digits_value_snoc (ds : jsstring) (c : N) :
  digits_value (ds ++ [c]) = (10 * digits_value ds + (c - 48))%N.
Proof.
  unfold digits_value. now rewrite fold_left_app.
Qed.

Lemma is_digit_of (d : N) : (d < 10)%N -> is_digit (48 + d) = true.
Proof.
  intros H. unfold is_digit. apply andb_true_iff. split; apply N.leb_le; lia.
Qed.

Lemma decimal_digits_spec (fuel : nat) (n : N) :
  (0 < fuel)%nat -> (n < 2 ^ N.of_nat fuel)%N ->
  digits_value (decimal_digits fuel n) = n /\
  decimal_digits fuel n <> [] /\
  all_digits (decimal_digits fuel n).
Proof.
  revert n. induction fuel as [|fuel IH]; intros n Hf Hn; [lia|].
  cbn [decimal_digits]. destruct (N.ltb_spec n 10) as [Hlt|Hge].
  - repeat split.
    + unfold digits_value. simpl. lia.
    + discriminate.
    + constructor; [now apply is_digit_of|constructor].
  - rewrite Nat2N.inj_succ, N.pow_succ_r' in Hn.
    assert (Hdiv : (n / 10 < 2 ^ N.of_nat fuel)%N)
      by (apply N.Div0.div_lt_upper_bound; lia).
    assert (Hfuel : (0 < fuel)%nat).
    { destruct fuel; [|lia]. simpl in Hdiv.
      assert (1 <= n / 10)%N by (apply N.div_le_lower_bound; lia). lia. }
    destruct (IH (n / 10)%N Hfuel Hdiv) as (Hp & Hne & Hd).
    repeat split.
    + rewrite digits_value_snoc, Hp.
      rewrite N.add_comm with (n := 48%N), N.add_sub.
      symmetry. apply N.div_mod. lia.
    + intros E. now apply app_eq_nil in E as [_ E].
    + apply Forall_app. split; [exact Hd|].
      constructor; [|constructor]. apply is_digit_of. apply N.mod_lt. lia.
Qed.

Lemma decimal_spec (n : N) :
  digits_value (decimal n) = n /\ decimal n <> [] /\ all_digits (decimal n).
Proof.
  apply decimal_digits_spec; [lia|].
  rewrite Nat2N.inj_succ, N2Nat.id.
  destruct n as [|p]; [reflexivity|]. apply N.log2_spec. lia.
Qed.

Lemma decimal_injective (n m : N) : decimal n = decimal m -> n = m.
Proof.
  intros E. destruct (decimal_spec n) as [Hn _], (decimal_spec m) as [Hm _].
  rewrite <- Hn, <- Hm. now rewrite E.
Qed.

Lemma extractCitations_text_with (segs : list (jsstring * jsstring)) (tail : jsstring) :
  Forall (fun seg => bracket_free seg.1 /\ seg.2 <> [] /\ all_digits seg.2) segs ->
  bracket_free tail ->
  extractCitations (text_with segs tail) = Some ((fun seg => citation_of seg.2) <$> segs).
Proof.
  intros Hsegs Htail. unfold extractCitations.
  rewrite (match_all_text_with segs tail Hsegs Htail).
  apply mapM_Some. clear Htail.
  induction Hsegs as [|[before ds] segs (_ & Hne & Hds) _ IH]; [constructor|].
  cbn [fmap list_fmap]. constructor; [|exact IH].
  cbn [snd]. now rewrite (first_digits_marker ds Hne Hds).
Qed.

Lemma parseInt_decimal (k : N) :
  (k < 2 ^ 53)%N -> parseInt (decimal k) = Fin (inject_Z (Z.of_N k)).
Proof.
  intros Hk. destruct (decimal_spec k) as (Hv & Hne & _).
  unfold parseInt. destruct (decimal k) as [|d ds] eqn:E; [congruence|].
  rewrite Hv.
  assert (Hz : (0 <= Z.of_N k < 2 ^ 53)%Z).
  { split; [lia|]. change (2 ^ 53)%Z with (Z.of_N (2 ^ 53)). lia. }
  assert (Ho : Qle_bool OVERFLOW (inject_Z (Z.of_N k)) = false).
  { destruct (Qle_bool OVERFLOW (inject_Z (Z.of_N k))) eqn:B; [|reflexivity].
    apply Qle_bool_iff in B. unfold OVERFLOW in B. rewrite <- Zle_Qle in B.
    assert (2 ^ 53 < 2 ^ 1024 - 2 ^ 970)%Z by (vm_compute; reflexivity). lia. }
  rewrite Ho. now rewrite round64_small_int.
Qed.

(** X10: markers written with the decimal numerals of numbers k1, ..., kn
    below 2^53, separated by text without an opening bracket, are
    extracted with exactly these numbers, in order. *)
Theorem source_numbers_round_trip (segs : list (jsstring * N)) (tail : jsstring) :
  Forall (fun seg => bracket_free seg.1 /\ (seg.2 < 2 ^ 53)%N) segs ->
  bracket_free tail ->
  exists cs,
    extractCitations (text_with ((fun seg => (seg.1, decimal seg.2)) <$> segs) tail) = Some cs /\
    Citation.sourceNumber <$> cs = (fun seg => Fin (inject_Z (Z.of_N seg.2))) <$> segs /\
    Citation.text <$> cs = (fun seg => marker (decimal seg.2)) <$> segs.
Proof.
  intros Hsegs Htail. eexists. split.
  - apply extractCitations_text_with; [|exact Htail].
    apply Forall_fmap. eapply Forall_impl; [exact Hsegs|].
    intros [b k] [Hb _]. simpl in *. destruct (decimal_spec k) as (_ & Hne & Hd). auto.
  - rewrite <- !list_fmap_compose. split.
    + apply Forall_fmap_ext. eapply Forall_impl; [exact Hsegs|].
      intros [b k] [_ Hk]. simpl in *. now apply parseInt_decimal.
    + apply list_fmap_ext. intros i [b k] _. reflexivity.
Qed.

Lemma source_numbers_round_trip_witness :
  exists cs,
    extractCitations
      (text_with ((fun seg => (seg.1, decimal seg.2)) <$> [(str "Up 65% ", 2%N); (str " and ", 17%N)])
                 (str ".")) = Some cs /\
    Citation.sourceNumber <$> cs = [Fin 2; Fin 17] /\
    Citation.text <$> cs = [marker (decimal 2); marker (decimal 17)].
Proof.
  apply (source_numbers_round_trip [(str "Up 65% ", 2%N); (str " and ", 17%N)] (str ".")).
  - repeat constructor; try discriminate; reflexivity.
  - repeat constructor; discriminate.
Defined.

(** ** Citations and the text *)

(** X11: every citation extracted is a marker that occurs in the text, its
    number is what [parseInt] makes of its digits, and there are at most a
    tenth as many citations as code units in the text. *)
Theorem citations_occur_in_text (text : jsstring) (cs : list Citation.t) :
  extractCitations text = Some cs ->
  Forall (fun c => includes (Citation.text c) text = true /\
                   exists ds, Citation.text c = marker ds /\ ds <> [] /\ all_digits ds /\
                              Citation.sourceNumber c = parseInt ds) cs /\
  (10 * List.length cs <= List.length text)%nat.
Proof.
  unfold extractCitations. intros H. apply mapM_Some in H.
  destruct (match_all_occur 0 text) as (Hinc & _ & Hlen).
  pose proof (match_all_markers 0 text) as Hshape.
  specialize (Hlen ltac:(lia)).
  rewrite (Forall2_length _ _ _ H) in Hlen. split; [|lia].
  clear Hlen. induction H as [|m c ms cs Hmc _ IH]; [constructor|].
  inversion Hinc; inversion Hshape; subst.
  constructor; [|now apply IH].
  match goal with Hs : exists ds, _ |- _ => destruct Hs as (ds & -> & Hne & Hds) end.
  rewrite (first_digits_marker ds Hne Hds) in Hmc. simpl in Hmc.
  injection Hmc as <-. simpl. split; [assumption|]. exists ds. auto.
Qed.

Lemma citations_occur_in_text_witness :
  Forall (fun c => includes (Citation.text c) (str "NAD+ rises [Source 9], see [Source 1].") = true /\
                   exists ds, Citation.text c = marker ds /\ ds <> [] /\ all_digits ds /\
                              Citation.sourceNumber c = parseInt ds)
         [citation_of (str "9"); citation_of (str "1")] /\
  (10 * List.length [citation_of (str "9"); citation_of (str "1")] <=
   List.length (str "NAD+ rises [Source 9], see [Source 1]."))%nat.
Proof.
  apply (citations_occur_in_text (str "NAD+ rises [Source 9], see [Source 1].")).
  reflexivity.
Defined.

(** ** More on chunking *)

Lemma groups_total_length {A} (c : nat) (groups : list (list A)) :
  groups <> [] ->
  Forall (fun g => (1 <= List.length g <= c)%nat) groups ->
  (forall k g, groups !! k = Some g -> (S k < List.length groups)%nat -> List.length g = c) ->
  (c * (List.length groups - 1) + 1 <= List.length (concat groups) <= c * List.length groups)%nat.
Proof.
  induction groups as [|g groups IH]; intros Hne Hlen Hfull; [congruence|].
  inversion Hlen as [|? ? Hg Hgs]; subst. cbn [concat List.length]. rewrite length_app.
  destruct groups as [|g' groups].
  - simpl. lia.
  - assert (Hc : List.length g = c) by (apply (Hfull 0%nat g); [reflexivity|simpl; lia]).
    assert (IH' := IH ltac:(discriminate) Hgs
                     (fun k x Hk Hl => Hfull (S k) x Hk ltac:(simpl in *; lia))).
    cbn [List.length] in *. nia.
Qed.

(** X12: for a positive window size, the number of chunks is the number of
    tokens divided by the window size, rounded up, and there is at least
    one chunk. *)
Theorem chunk_count_is_ceiling (text : jsstring) (chunkSize : nat) :
  (0 < chunkSize)%nat ->
  exists chunks,
    chunkDocument text chunkSize = Some chunks /\
    List.length chunks = ((List.length (split SPACE text) + chunkSize - 1) / chunkSize)%nat /\
    (1 <= List.length chunks)%nat.
Proof.
  intros Hc. unfold chunkDocument.
  destruct (chunk_loop_groups (split SPACE text) chunkSize Hc
              (List.length (split SPACE text)) 0%nat [])
    as (groups & Hloop & Hcat & Hlen & Hfull); [lia|].
  rewrite drop_0 in Hcat. rewrite app_nil_l in Hloop.
  exists (join SPACE <$> groups). split; [exact Hloop|]. rewrite length_fmap.
  assert (Hne : groups <> []).
  { intros ->. simpl in Hcat. symmetry in Hcat. now apply split_not_nil in Hcat. }
  pose proof (groups_total_length chunkSize groups Hne Hlen Hfull) as Hb.
  rewrite Hcat in Hb.
  assert (Hg : (1 <= List.length groups)%nat) by (destruct groups; [congruence|simpl; lia]).
  split; [|exact Hg].
  apply (Nat.div_unique _ _ _
           (List.length (split SPACE text) + chunkSize - 1 - chunkSize * List.length groups)).
  - nia.
  - nia.
Qed.

Lemma chunk_count_is_ceiling_witness :
  exists chunks,
    chunkDocument (str "a b c d e") 2 = Some chunks /\
    List.length chunks = ((List.length (split SPACE (str "a b c d e")) + 2 - 1) / 2)%nat /\
    (1 <= List.length chunks)%nat.
Proof.
  apply (chunk_count_is_ceiling (str "a b c d e") 2). lia.
Defined.

(** X13: a text with at most window-size tokens is returned as a single
    chunk, the text itself. *)
Theorem short_text_is_one_chunk (text : jsstring) (chunkSize : nat) :
  (List.length (split SPACE text) <= chunkSize)%nat ->
  chunkDocument text chunkSize = Some [text].
Proof.
  intros Hc. unfold chunkDocument.
  pose proof (split_not_nil SPACE text) as Hne.
  pose proof (join_split SPACE text) as Hjoin.
  destruct (split SPACE text) as [|w ws] eqn:E; [congruence|].
  cbn [List.length chunk_loop Nat.ltb Nat.leb].
  assert (Hslice : slice 0 (0 + chunkSize) (w :: ws) = w :: ws).
  { unfold slice. rewrite drop_0. apply take_ge. simpl in *. lia. }
  rewrite Hslice, Hjoin. cbn [app].
  destruct (List.length ws) eqn:L; cbn [chunk_loop];
    destruct (Nat.ltb_spec (0 + chunkSize) (List.length (w :: ws)));
    simpl in *; try lia; reflexivity.
Qed.

Lemma short_text_is_one_chunk_witness :
  chunkDocument (str "NAD+ metabolism in aging") 500 = Some [str "NAD+ metabolism in aging"].
Proof.
  apply (short_text_is_one_chunk (str "NAD+ metabolism in aging") 500).
  vm_compute. lia.
Defined.

(** X14: with a window size of 0 the loop of [chunkDocument] does not end:
    no amount of fuel gives a result, for any text. *)
Theorem zero_chunk_size_never_ends (text : jsstring) (fuel : nat) (chunks : list jsstring) :
  chunk_loop fuel (split SPACE text) 0 0 chunks = None.
Proof.
  pose proof (split_not_nil SPACE text) as Hne.
  revert chunks. induction fuel as [|fuel IH]; intros chunks; cbn [chunk_loop];
    destruct (Nat.ltb_spec 0 (List.length (split SPACE text))) as [_|H].
  - reflexivity.
  - destruct (split SPACE text); [congruence|simpl in H; lia].
  - apply IH.
  - destruct (split SPACE text); [congruence|simpl in H; lia].
Qed.

(** ** The embedding cache *)

(** X15: [createEmbedding] never removes or replaces an entry of the cache,
    whatever it is called on and whether it succeeds or fails. *)
Theorem createEmbedding_keeps_cache_entries
    (ext : Externals) (v : jsval) (st st' : State) (r : error + embedding)
    (key : jsstring) (e : embedding) :
  createEmbedding ext v st = (r, st') ->
  embeddingsCache st !! key = Some e ->
  embeddingsCache st' !! key = Some e.
Proof.
  destruct v; try (unfold createEmbedding, throw; intros [= <- <-]; tauto).
  rewrite createEmbedding_cases.
  destruct (embeddingsCache st !! cache_key s) as [e0|] eqn:Hc.
  - intros [= <- <-]. tauto.
  - destruct (embeddings_create ext (trace st) s) as [e1|]; intros [= <- <-] Hk.
    + cbn [embeddingsCache]. rewrite lookup_insert_ne; [exact Hk|].
      intros E. rewrite E in Hc. rewrite Hc in Hk. discriminate.
    + exact Hk.
Qed.

Lemma createEmbedding_keeps_cache_entries_witness :
  embeddingsCache
    (createEmbedding demo_externals (JString (str "NAD+"))
       (createEmbedding demo_externals (JString text_one) initial_state).2).2
    !! cache_key text_one = Some [count 101; count 0].
Proof.
  apply (createEmbedding_keeps_cache_entries demo_externals (JString (str "NAD+"))
           (createEmbedding demo_externals (JString text_one) initial_state).2
           (createEmbedding demo_externals (JString (str "NAD+"))
              (createEmbedding demo_externals (JString text_one) initial_state).2).2
           (inr [count 4; count 1])).
  - vm_compute. reflexivity.
  - vm_compute. reflexivity.
Defined.

Lemma createEmbedding_outcome
    (ext : Externals) (text : jsstring) (st st' : State) (r : error + embedding) :
  createEmbedding ext (JString text) st = (r, st') ->
  match embeddingsCache st !! cache_key text with
  | Some e => r = inr e /\ st' = st
  | None =>
      trace st' = trace st ++ [EmbeddingsCreate text] /\
      match r with
      | inr e => embeddings_create ext (trace st) text = Some e /\
                 embeddingsCache st' = <[cache_key text := e]> (embeddingsCache st)
      | inl err => err = ExternalError (EmbeddingsCreate text) /\
                   embeddingsCache st' = embeddingsCache st
      end
  end.
Proof.
  rewrite createEmbedding_cases.
  destruct (embeddingsCache st !! cache_key text) as [e0|].
  - intros [= <- <-]. auto.
  - destruct (embeddings_create ext (trace st) text) as [e1|]; intros [= <- <-]; auto.
Qed.

(** X16: on a cache hit [createEmbedding] returns the cached vector and
    changes nothing; on a miss it calls the provider once, with the
    whole text, caches the vector under the truncated key on success,
    and caches nothing on failure. *)
Theorem createEmbedding_provider_calls
    (ext : Externals) (text : jsstring) (st st' : State) (r : error + embedding) :
  createEmbedding ext (JString text) st = (r, st') ->
  match embeddingsCache st !! cache_key text with
  | Some e => r = inr e /\ st' = st
  | None =>
      trace st' = trace st ++ [EmbeddingsCreate text] /\
      match r with
      | inr e => embeddings_create ext (trace st) text = Some e /\
                 embeddingsCache st' = <[cache_key text := e]> (embeddingsCache st)
      | inl err => err = ExternalError (EmbeddingsCreate text) /\
                   embeddingsCache st' = embeddingsCache st
      end
  end.
Proof.
  intros H. exact (createEmbedding_outcome ext text st st' r H).
Qed.

Lemma createEmbedding_provider_calls_witness :
  exists r st',
    createEmbedding demo_externals (JString (str "NAD+")) initial_state = (r, st') /\
    trace st' = trace initial_state ++ [EmbeddingsCreate (str "NAD+")].
Proof.
  eexists. eexists. split; [vm_compute; reflexivity|].
  eapply proj1.
  apply (createEmbedding_provider_calls demo_externals (str "NAD+") initial_state).
  vm_compute. reflexivity.
Defined.

(** ** The pipeline *)

Lemma searchLongevity_inv
    (ext : Externals) (query : jsval) (topK : nat) (types : list jsstring)
    (st st' : State) (results : list SearchResult) :
  searchLongevity ext query topK types st = (inr results, st') ->
  exists text emb matches st1,
    query = JString text /\
    createEmbedding ext query
      {| embeddingsCache := embeddingsCache st;
         trace := trace st ++ [PineconeIndex INDEX_NAME] |} = (inr emb, st1) /\
    index_query ext (trace st1) emb topK types = Some matches /\
    results = format_match ext <$> matches /\
    embeddingsCache st' = embeddingsCache st1 /\
    trace st' = trace st1 ++ [IndexQuery emb topK types].
Proof.
  unfold searchLongevity, bind at 1. unfold call at 1.
  destruct (pinecone_index ext (trace st) INDEX_NAME); [|discriminate].
  unfold bind at 1.
  destruct (createEmbedding ext query _) as [[err|emb] st1] eqn:He; [discriminate|].
  unfold bind, call, ret.
  destruct (index_query ext (trace st1) emb topK types) as [matches|] eqn:Hq; [|discriminate].
  intros [= <- <-].
  destruct query; try (unfold createEmbedding, throw in He; discriminate).
  exists s, emb, matches, st1. auto 10.
Qed.

Lemma generateRAGResponse_inv
    (ext : Externals) (userQuery userProfile : jsval) (st st' : State) (a : Answer.t) :
  generateRAGResponse ext userQuery userProfile st = (inr a, st') ->
  exists results st1 context systemPrompt generated,
    let topResults := take TOP_K (sort_desc results) in
    let userPrompt := getRAGUserPrompt ext userQuery context in
    searchLongevity ext userQuery 8 RAG_TYPES st = (inr results, st1) /\
    formatRAGContext ext topResults userProfile = Some context /\
    getRAGSystemPrompt ext userProfile = Some systemPrompt /\
    chat_completions_create ext (trace st1) systemPrompt userPrompt = Some generated /\
    embeddingsCache st' = embeddingsCache st1 /\
    trace st' = trace st1 ++ [ChatCompletionsCreate systemPrompt userPrompt] /\
    Answer.sources a = topResults /\
    Answer.response a = generated /\
    Some (Answer.citations a) = extractCitations generated /\
    Answer.confidence a = calculateResponseConfidence topResults /\
    Answer.query a = userQuery.
Proof.
  unfold generateRAGResponse, bind at 1.
  destruct (searchLongevity ext userQuery 8 RAG_TYPES st) as [[e|results] st1] eqn:Hs;
    [discriminate|].
  change (slice 0 TOP_K (sort_desc results)) with (take TOP_K (sort_desc results)).
  unfold bind, of_option, call, ret, throw.
  destruct (formatRAGContext ext _ userProfile) as [context|] eqn:Hc; [|discriminate].
  destruct (getRAGSystemPrompt ext userProfile) as [sys|] eqn:Hp; [|discriminate].
  destruct (chat_completions_create ext _ _ _) as [g|] eqn:Hg; [|discriminate].
  unfold formatRAGResponse.
  destruct (extractCitations g) as [cs|] eqn:Hx; [|discriminate].
  cbn [mbind option_bind]. intros [= <- <-].
  exists results, st1, context, sys, g. cbn. auto 12.
Qed.

(** X17: [searchLongevity] on a query that is not a string fails after the
    index call only: neither the embedding provider nor the vector store
    is called, and the cache is unchanged. *)
Theorem search_rejects_non_strings_after_index_call
    (ext : Externals) (query : jsval) (topK : nat) (types : list jsstring)
    (st st' : State) (r : error + list SearchResult) :
  is_string query = false ->
  searchLongevity ext query topK types st = (r, st') ->
  (exists e, r = inl e) /\
  trace st' = trace st ++ [PineconeIndex INDEX_NAME] /\
  embeddingsCache st' = embeddingsCache st.
Proof.
  intros Hq. unfold searchLongevity, bind at 1. unfold call at 1.
  destruct (pinecone_index ext (trace st) INDEX_NAME).
  - unfold bind at 1.
    destruct query; try discriminate; unfold createEmbedding, throw;
      intros [= <- <-]; eauto.
  - intros [= <- <-]. eauto.
Qed.

Lemma search_rejects_non_strings_after_index_call_witness :
  exists r st',
    searchLongevity demo_externals (JNumber (Fin 42)) 5 [] initial_state = (r, st') /\
    (exists e, r = inl e) /\
    trace st' = trace initial_state ++ [PineconeIndex INDEX_NAME] /\
    embeddingsCache st' = embeddingsCache initial_state.
Proof.
  eexists. eexists. split; [vm_compute; reflexivity|].
  apply (search_rejects_non_strings_after_index_call demo_externals (JNumber (Fin 42)) 5 []
           initial_state).
  - reflexivity.
  - vm_compute. reflexivity.
Defined.

(** X18: when [generateRAGResponse] returns an answer, the query is a
    string and the external calls made are, in this order, the index
    call, the embedding call, one vector-store query for 8 results and
    one generation call; the embedding call is absent exactly when the
    cache held a vector for the truncated key, and that vector is then
    the one the vector store is queried with; otherwise the query uses
    the vector the provider returned. *)
Theorem answer_trace_shape
    (ext : Externals) (userQuery userProfile : jsval) (st st' : State) (a : Answer.t) :
  generateRAGResponse ext userQuery userProfile st = (inr a, st') ->
  exists text emb systemPrompt userPrompt,
    userQuery = JString text /\
    ((embeddingsCache st !! cache_key text = Some emb /\
      trace st' = trace st ++ [PineconeIndex INDEX_NAME; IndexQuery emb 8 RAG_TYPES;
                               ChatCompletionsCreate systemPrompt userPrompt]) \/
     (embeddingsCache st !! cache_key text = None /\
      embeddings_create ext (trace st ++ [PineconeIndex INDEX_NAME]) text = Some emb /\
      trace st' = trace st ++ [PineconeIndex INDEX_NAME; EmbeddingsCreate text;
                               IndexQuery emb 8 RAG_TYPES;
                               ChatCompletionsCreate systemPrompt userPrompt])).
Proof.
  intros H. apply generateRAGResponse_inv in H
    as (results & st1 & ctx & sys & g & Hs & _ & _ & _ & _ & Ht & _).
  apply searchLongevity_inv in Hs
    as (text & emb & matches & st0 & -> & He & _ & _ & _ & Ht1).
  exists text, emb, sys, (getRAGUserPrompt ext (JString text) ctx).
  split; [reflexivity|].
  apply createEmbedding_outcome in He.
  cbn [embeddingsCache trace] in He. rewrite Ht, Ht1.
  destruct (embeddingsCache st !! cache_key text) as [e0|].
  - destruct He as [[= <-] ->]. left. split; [reflexivity|].
    cbn [trace]. now rewrite <- !app_assoc.
  - destruct He as [-> [Hp _]]. right. split; [reflexivity|]. split; [exact Hp|].
    now rewrite <- !app_assoc.
Qed.

Lemma answer_trace_shape_witness :
  exists a st',
    generateRAGResponse demo_externals (JString (str "NAD+ dosage")) JObject initial_state
      = (inr a, st') /\
    exists text emb systemPrompt userPrompt,
      JString (str "NAD+ dosage") = JString text /\
      ((embeddingsCache initial_state !! cache_key text = Some emb /\
        trace st' = trace initial_state ++
                    [PineconeIndex INDEX_NAME; IndexQuery emb 8 RAG_TYPES;
                     ChatCompletionsCreate systemPrompt userPrompt]) \/
       (embeddingsCache initial_state !! cache_key text = None /\
        embeddings_create demo_externals
          (trace initial_state ++ [PineconeIndex INDEX_NAME]) text = Some emb /\
        trace st' = trace initial_state ++
                    [PineconeIndex INDEX_NAME; EmbeddingsCreate text;
                     IndexQuery emb 8 RAG_TYPES;
                     ChatCompletionsCreate systemPrompt userPrompt])).
Proof.
  eexists. eexists. split; [vm_compute; reflexivity|].
  eapply (answer_trace_shape demo_externals (JString (str "NAD+ dosage")) JObject initial_state).
  vm_compute. reflexivity.
Defined.

(** X19: when [generateRAGResponse] fails, either the generation call itself
    failed or the generator was not called at all: a failed retrieval is
    never followed by a generation. *)
Theorem failed_retrieval_is_not_generated
    (ext : Externals) (userQuery userProfile : jsval) (st st' : State) (e : error) :
  generateRAGResponse ext userQuery userProfile st = (inl e, st') ->
  (exists systemPrompt userPrompt,
     e = ExternalError (ChatCompletionsCreate systemPrompt userPrompt)) \/
  (exists events, trace st' = trace st ++ events /\
                  Forall (fun ev => is_generation ev = false) events).
Proof.
  unfold generateRAGResponse, bind at 1.
  destruct (searchLongevity ext userQuery 8 RAG_TYPES st) as [[e0|results] st1] eqn:Hs.
  - intros [= <- <-]. right. revert Hs.
    unfold searchLongevity, bind at 1. unfold call at 1.
    destruct (pinecone_index ext (trace st) INDEX_NAME).
    + unfold bind at 1.
      destruct (createEmbedding ext userQuery _) as [[err|emb] st0] eqn:He.
      * intros [= <- <-]. destruct userQuery;
          try (unfold createEmbedding, throw in He; injection He as <- <-;
               exists [PineconeIndex INDEX_NAME]; split; [reflexivity|repeat constructor]).
        apply createEmbedding_outcome in He.
        cbn [embeddingsCache trace] in He. destruct (embeddingsCache st !! _).
        -- destruct He as [? _]. discriminate.
        -- destruct He as [-> _]. exists [PineconeIndex INDEX_NAME; EmbeddingsCreate s].
           split; [now rewrite <- app_assoc|repeat constructor].
      * unfold bind, call, ret.
        destruct (index_query ext (trace st0) emb 8 RAG_TYPES); [discriminate|].
        intros [= <- <-]. cbn [trace].
        destruct userQuery; try (unfold createEmbedding, throw in He; discriminate).
        apply createEmbedding_outcome in He.
        cbn [embeddingsCache trace] in He. destruct (embeddingsCache st !! _).
        -- destruct He as [_ ->]. cbn [trace].
           exists [PineconeIndex INDEX_NAME; IndexQuery emb 8 RAG_TYPES].
           split; [now rewrite <- !app_assoc|repeat constructor].
        -- destruct He as [-> _].
           exists [PineconeIndex INDEX_NAME; EmbeddingsCreate s; IndexQuery emb 8 RAG_TYPES].
           split; [now rewrite <- !app_assoc|repeat constructor].
    + intros [= <- <-]. exists [PineconeIndex INDEX_NAME].
      split; [reflexivity|repeat constructor].
  - unfold bind, of_option, call, ret, throw.
    pose proof Hs as Hs'.
    apply searchLongevity_inv in Hs' as (text & emb & matches & st0 & -> & He & _ & _ & _ & Ht1).
    apply createEmbedding_outcome in He.
    cbn [embeddingsCache trace] in He.
    assert (Hev : exists events, trace st1 = trace st ++ events /\
                                 Forall (fun ev => is_generation ev = false) events).
    { rewrite Ht1. destruct (embeddingsCache st !! _).
      - destruct He as [_ ->]. cbn [trace].
        exists [PineconeIndex INDEX_NAME; IndexQuery emb 8 RAG_TYPES].
        split; [now rewrite <- !app_assoc|repeat constructor].
      - destruct He as [-> _].
        exists [PineconeIndex INDEX_NAME; EmbeddingsCreate text; IndexQuery emb 8 RAG_TYPES].
        split; [now rewrite <- !app_assoc|repeat constructor]. }
    destruct (formatRAGContext ext _ userProfile) as [context|]; [|intros [= <- <-]; now right].
    destruct (getRAGSystemPrompt ext userProfile) as [sys|]; [|intros [= <- <-]; now right].
    destruct (chat_completions_create ext _ _ _) as [g|].
    + destruct (extractCitations_total g) as [cs Hx].
      unfold formatRAGResponse. rewrite Hx. cbn [mbind option_bind]. discriminate.
    + intros [= <- <-]. left. eauto.
Qed.

Lemma failed_retrieval_is_not_generated_witness :
  exists e st',
    generateRAGResponse unreachable_index_externals (JString (str "NAD+ dosage")) JObject
      initial_state = (inl e, st') /\
    ((exists systemPrompt userPrompt,
        e = ExternalError (ChatCompletionsCreate systemPrompt userPrompt)) \/
     (exists events, trace st' = trace initial_state ++ events /\
                     Forall (fun ev => is_generation ev = false) events)).
Proof.
  eexists. eexists. split; [vm_compute; reflexivity|].
  eapply (failed_retrieval_is_not_generated unreachable_index_externals
            (JString (str "NAD+ dosage")) JObject initial_state).
  vm_compute. reflexivity.
Defined.

(** X20: when the vector store returns no match, the generator is still
    called and the answer has no sources, the confidence score NaN, the
    level Low, and as citations whatever markers the generated text
    contains. *)
Theorem empty_retrieval_is_still_answered
    (ext : Externals) (userQuery userProfile : jsval) (st st1 st' : State) (a : Answer.t) :
  searchLongevity ext userQuery 8 RAG_TYPES st = (inr [], st1) ->
  generateRAGResponse ext userQuery userProfile st = (inr a, st') ->
  Answer.sources a = [] /\
  Confidence.score (Answer.confidence a) = NaN /\
  Confidence.level (Answer.confidence a) = str "Low" /\
  (exists systemPrompt userPrompt,
     trace st' = trace st1 ++ [ChatCompletionsCreate systemPrompt userPrompt]) /\
  Some (Answer.citations a) = extractCitations (Answer.response a).
Proof.
  intros Hs H. apply generateRAGResponse_inv in H
    as (results & st1' & ctx & sys & g & Hs' & _ & _ & _ & _ & Ht & Hsrc & Hr & Hc & Hconf & _).
  rewrite Hs in Hs'. injection Hs' as <- <-.
  rewrite Hconf, Hsrc, Hr. repeat split; eauto.
Qed.

Lemma empty_retrieval_is_still_answered_witness :
  exists a st1 st',
    searchLongevity empty_index_externals (JString (str "NAD+ dosage")) 8 RAG_TYPES
      initial_state = (inr [], st1) /\
    generateRAGResponse empty_index_externals (JString (str "NAD+ dosage")) JObject
      initial_state = (inr a, st') /\
    Answer.sources a = [] /\
    Confidence.score (Answer.confidence a) = NaN /\
    Confidence.level (Answer.confidence a) = str "Low" /\
    (exists systemPrompt userPrompt,
       trace st' = trace st1 ++ [ChatCompletionsCreate systemPrompt userPrompt]) /\
    Some (Answer.citations a) = extractCitations (Answer.response a).
Proof.
  eexists. eexists. eexists. split; [vm_compute; reflexivity|].
  split; [vm_compute; reflexivity|].
  eapply (empty_retrieval_is_still_answered empty_index_externals
            (JString (str "NAD+ dosage")) JObject initial_state).
  - vm_compute. reflexivity.
  - vm_compute. reflexivity.
Defined.

(** ** The query handler *)

(** X21: [handleLongevityQuery] answers 400 for a falsy query and 503 for
    a service that is not initialized, both without changing the state;
    otherwise it runs [generateRAGResponse] on the query and the profile
    (the empty object for an undefined profile) and answers 200 with the
    answer, for a string query and with at most five sources, exactly
    when the pipeline returns, and 500 with 'Failed to process query'
    exactly when it throws; the state is then the one the pipeline
    left. *)
Theorem handler_status_contract
    (ext : Externals) (isInitialized : bool) (body : Body) (st st' : State) (reply : Reply) :
  handleLongevityQuery ext isInitialized body st = (reply, st') ->
  let profile := profile_or_empty (body_userProfile body) in
  (truthy (body_query body) = false /\ st' = st /\
   reply = {| status := 400; payload := ErrorPayload (str "Query is required") |}) \/
  (truthy (body_query body) = true /\ isInitialized = false /\ st' = st /\
   reply = {| status := 503; payload := ErrorPayload (str "RAG system not initialized") |}) \/
  (truthy (body_query body) = true /\ isInitialized = true /\
   exists a,
     generateRAGResponse ext (body_query body) profile st = (inr a, st') /\
     reply = {| status := 200; payload := AnswerPayload a |} /\
     is_string (body_query body) = true /\
     (List.length (Answer.sources a) <= 5)%nat) \/
  (truthy (body_query body) = true /\ isInitialized = true /\
   exists e,
     generateRAGResponse ext (body_query body) profile st = (inl e, st') /\
     reply = {| status := 500; payload := ErrorPayload (str "Failed to process query") |}).
Proof.
  unfold handleLongevityQuery. cbn zeta.
  assert (Ep : forall p, match p with JUndefined => JObject | _ => p end = profile_or_empty p)
    by reflexivity.
  rewrite Ep.
  destruct (truthy (body_query body)) eqn:Hq; cbn [negb].
  - destruct isInitialized; cbn [negb].
    + destruct (generateRAGResponse ext (body_query body) _ st) as [[e|a] st1] eqn:Hg;
        intros [= <- <-].
      * right. right. right. eauto 6.
      * right. right. left. split; [reflexivity|]. split; [reflexivity|].
        exists a. split; [reflexivity|]. split; [reflexivity|].
        apply generateRAGResponse_inv in Hg
          as (results & st0 & ctx & sys & g & Hs & _ & _ & _ & _ & _ & Hsrc & _).
        apply searchLongevity_inv in Hs as (text & _ & _ & _ & -> & _).
        split; [reflexivity|].
        rewrite Hsrc, length_take. unfold TOP_K. lia.
    + intros [= <- <-]. right. left. auto.
  - intros [= <- <-]. left. auto.
Qed.

Lemma handler_status_contract_witness :
  exists reply st',
    handleLongevityQuery demo_externals true
      {| body_query := JString (str "NAD+ dosage"); body_userProfile := JUndefined |}
      initial_state = (reply, st') /\
    status reply = 200%nat.
Proof.
  eexists. eexists. split; [vm_compute; reflexivity|].
  destruct (handler_status_contract demo_externals true
              {| body_query := JString (str "NAD+ dosage"); body_userProfile := JUndefined |}
              initial_state _ _ ltac:(vm_compute; reflexivity))
    as [(_ & _ & H)|[(_ & _ & _ & H)|[(_ & _ & a & _ & H & _)|(_ & _ & e & _ & H)]]];
    try discriminate H.
  reflexivity.
Defined.

(** ** Ingestion *)

Lemma embed_upserted (ix : IngestExternals) (text : jsstring) (st st' : IngestState)
    (r : ingest_error + embedding) :
  embed ix text st = (r, st') -> upserted st' = upserted st.
Proof.
  unfold embed. destruct (createEmbedding _ _ _) as [[err|e] s]; now intros [= <- <-].
Qed.

Lemma upsert_upserted (ix : IngestExternals) (v : Vector) (st st' : IngestState)
    (r : ingest_error + unit) :
  upsert ix v st = (r, st') ->
  match r with
  | inr _ => upserted st' = upserted st ++ [v]
  | inl _ => upserted st' = upserted st
  end.
Proof.
  unfold upsert. destruct (index_upsert _ _ _ _); now intros [= <- <-].
Qed.

Lemma ingest_chunks_ok (ix : IngestExternals) (doc : Document) (p total : nat)
    (chunks : list jsstring) :
  forall (i : nat) (st st' : IngestState),
    ingest_chunks ix doc p total i chunks st = (inr tt, st') ->
    exists embs,
      List.length embs = List.length chunks /\
      upserted st' = upserted st ++
        imap (fun j ce => chunk_vector doc p total (i + j) ce.1 ce.2) (zip chunks embs).
Proof.
  induction chunks as [|chunk rest IH]; intros i st st'.
  - intros [= <-]. exists []. split; [reflexivity|]. simpl. now rewrite app_nil_r.
  - cbn [ingest_chunks]. unfold ibind at 1.
    destruct (embed ix chunk st) as [[err|e] st1] eqn:He; [discriminate|].
    unfold ibind at 1.
    destruct (upsert ix _ st1) as [[err|[]] st2] eqn:Hu; [discriminate|].
    intros H. apply IH in H as (embs & Hlen & Hup).
    apply embed_upserted in He. apply upsert_upserted in Hu.
    exists (e :: embs). split; [simpl; lia|].
    rewrite Hup, Hu, He, <- app_assoc. f_equal. cbn [zip zip_with imap app].
    rewrite Nat.add_0_r. f_equal.
    apply imap_ext. intros j ce _. cbn. f_equal. lia.
Qed.

Lemma ingest_chunks_failed (ix : IngestExternals) (doc : Document) (p total : nat)
    (chunks : list jsstring) :
  forall (i : nat) (st st' : IngestState) (err : ingest_error),
    ingest_chunks ix doc p total i chunks st = (inl err, st') ->
    exists k embs,
      (k < List.length chunks)%nat /\ List.length embs = k /\
      upserted st' = upserted st ++
        imap (fun j ce => chunk_vector doc p total (i + j) ce.1 ce.2)
             (zip (take k chunks) embs).
Proof.
  induction chunks as [|chunk rest IH]; intros i st st' err; [discriminate|].
  cbn [ingest_chunks]. unfold ibind at 1.
  destruct (embed ix chunk st) as [[err0|e] st1] eqn:He.
  - intros [= <- <-]. apply embed_upserted in He.
    exists 0%nat, []. simpl. rewrite app_nil_r. repeat split; [lia|exact He].
  - unfold ibind at 1.
    destruct (upsert ix _ st1) as [[err0|[]] st2] eqn:Hu.
    + intros [= <- <-]. apply embed_upserted in He. apply upsert_upserted in Hu.
      exists 0%nat, []. simpl. rewrite app_nil_r. repeat split; [lia|congruence].
    + intros H. apply IH in H as (k & embs & Hk & Hlen & Hup).
      apply embed_upserted in He. apply upsert_upserted in Hu.
      exists (S k), (e :: embs). split; [simpl; lia|]. split; [simpl; lia|].
      rewrite Hup, Hu, He, <- app_assoc. f_equal. cbn [take zip zip_with imap app].
      rewrite Nat.add_0_r. f_equal.
      apply imap_ext. intros j ce _. cbn. f_equal. lia.
Qed.

(** X22: a successful chunked ingestion of a document upserts one record per
    chunk, in order: chunk i gets the id '<id>-chunk-<i>', chunk_index
    i, total_chunks the number of chunks, the metadata and id of the
    document, and as preview the chunk cut at the preview size. *)
Theorem chunked_ingestion_records
    (ix : IngestExternals) (chunkSize previewSize : nat) (doc : Document)
    (st st' : IngestState) :
  ingest_chunked ix chunkSize previewSize doc st = (inr tt, st') ->
  exists chunks embs,
    chunkDocument (doc_text doc) chunkSize = Some chunks /\
    List.length embs = List.length chunks /\
    upserted st' = upserted st ++
      imap (fun i ce => chunk_vector doc previewSize (List.length chunks) i ce.1 ce.2)
           (zip chunks embs).
Proof.
  unfold ingest_chunked.
  destruct (chunkDocument (doc_text doc) chunkSize) as [chunks|]; [|discriminate].
  intros H. apply ingest_chunks_ok in H as (embs & Hlen & Hup).
  exists chunks, embs. auto.
Qed.

Lemma chunked_ingestion_records_witness :
  exists st' chunks embs,
    ingest_chunked demo_ingest 3 20 demo_paper initial_ingest_state = (inr tt, st') /\
    chunkDocument (doc_text demo_paper) 3 = Some chunks /\
    List.length embs = List.length chunks /\
    upserted st' = upserted initial_ingest_state ++
      imap (fun i ce => chunk_vector demo_paper 20 (List.length chunks) i ce.1 ce.2)
           (zip chunks embs).
Proof.
  eexists.
  assert (E : ingest_chunked demo_ingest 3 20 demo_paper initial_ingest_state
              = (inr tt, (ingest_chunked demo_ingest 3 20 demo_paper initial_ingest_state).2))
    by (vm_compute; reflexivity).
  destruct (chunked_ingestion_records demo_ingest 3 20 demo_paper initial_ingest_state _ E)
    as (chunks & embs & H1 & H2 & H3).
  exists chunks, embs. split; [exact E|]. auto.
Defined.

(** X23: the ids of the records upserted for the chunks of one document are
    pairwise distinct. *)
Theorem chunk_ids_are_distinct
    (ix : IngestExternals) (chunkSize previewSize : nat) (doc : Document)
    (st st' : IngestState) :
  ingest_chunked ix chunkSize previewSize doc st = (inr tt, st') ->
  NoDup (vector_id <$> drop (List.length (upserted st)) (upserted st')).
Proof.
  unfold ingest_chunked.
  destruct (chunkDocument (doc_text doc) chunkSize) as [chunks|]; [|discriminate].
  intros H. apply ingest_chunks_ok in H as (embs & Hlen & ->).
  rewrite drop_app_length. apply NoDup_alt. intros i j x Hi Hj.
  rewrite list_lookup_fmap, list_lookup_imap in Hi, Hj.
  destruct (zip chunks embs !! i) as [ci|]; [|discriminate].
  destruct (zip chunks embs !! j) as [cj|]; [|discriminate].
  change (Some (doc_id doc ++ str "-chunk-" ++ decimal (N.of_nat i)) = Some x) in Hi.
  change (Some (doc_id doc ++ str "-chunk-" ++ decimal (N.of_nat j)) = Some x) in Hj.
  rewrite <- Hj in Hi. apply (inj Some) in Hi.
  apply app_inv_head in Hi. apply app_inv_head in Hi.
  apply decimal_injective in Hi. lia.
Qed.

Lemma chunk_ids_are_distinct_witness :
  NoDup (vector_id <$>
           drop (List.length (upserted initial_ingest_state))
                (upserted (ingest_chunked demo_ingest 3 20 demo_paper initial_ingest_state).2)).
Proof.
  apply (chunk_ids_are_distinct demo_ingest 3 20 demo_paper initial_ingest_state).
  vm_compute. reflexivity.
Defined.

(** X24: when the ingestion of a document fails, the records of the k chunks
    before the failing one, for some k below the number of chunks, have
    been upserted and stay: nothing is rolled back. *)
Theorem failed_ingestion_keeps_earlier_chunks
    (ix : IngestExternals) (chunkSize previewSize : nat) (doc : Document)
    (st st' : IngestState) (err : ingest_error) :
  (0 < chunkSize)%nat ->
  ingest_chunked ix chunkSize previewSize doc st = (inl err, st') ->
  exists chunks k embs,
    chunkDocument (doc_text doc) chunkSize = Some chunks /\
    (k < List.length chunks)%nat /\ List.length embs = k /\
    upserted st' = upserted st ++
      imap (fun i ce => chunk_vector doc previewSize (List.length chunks) i ce.1 ce.2)
           (zip (take k chunks) embs).
Proof.
  intros Hc. unfold ingest_chunked, chunkDocument.
  destruct (chunk_loop_groups (split SPACE (doc_text doc)) chunkSize Hc
              (List.length (split SPACE (doc_text doc))) 0%nat [] ltac:(lia))
    as (groups & -> & _).
  rewrite app_nil_l. set (chunks := join SPACE <$> groups).
  intros H. apply ingest_chunks_failed in H as (k & embs & Hk & Hlen & Hup).
  exists chunks, k, embs. auto.
Qed.

Lemma failed_ingestion_keeps_earlier_chunks_witness :
  exists err st' chunks k embs,
    ingest_chunked flaky_ingest 3 20 demo_paper initial_ingest_state = (inl err, st') /\
    chunkDocument (doc_text demo_paper) 3 = Some chunks /\
    (k < List.length chunks)%nat /\ List.length embs = k /\
    upserted st' = upserted initial_ingest_state ++
      imap (fun i ce => chunk_vector demo_paper 20 (List.length chunks) i ce.1 ce.2)
           (zip (take k chunks) embs).
Proof.
  eexists. eexists.
  assert (E : ingest_chunked flaky_ingest 3 20 demo_paper initial_ingest_state
              = (inl ((fun r => match r with inl e => e | inr _ => NoTermination end)
                        (ingest_chunked flaky_ingest 3 20 demo_paper initial_ingest_state).1),
                 (ingest_chunked flaky_ingest 3 20 demo_paper initial_ingest_state).2))
    by (vm_compute; reflexivity).
  destruct (failed_ingestion_keeps_earlier_chunks flaky_ingest 3 20 demo_paper
              initial_ingest_state _ _ ltac:(lia) E)
    as (chunks & k & embs & H1 & H2 & H3 & H4).
  exists chunks, k, embs. split; [exact E|]. auto.
Defined.

Lemma for_each_growth {A} (body : A -> MI unit) (w : A -> nat) (items : list A) :
  (forall x st st', body x st = (inr tt, st') ->
                    List.length (upserted st') = (List.length (upserted st) + w x)%nat) ->
  forall st st',
    for_each body items st = (inr tt, st') ->
    List.length (upserted st') = (List.length (upserted st) + sum_list (w <$> items))%nat.
Proof.
  intros Hbody. induction items as [|x items IH]; intros st st'.
  - intros [= <-]. simpl. lia.
  - cbn [for_each]. unfold ibind at 1.
    destruct (body x st) as [[err|[]] st1] eqn:Hx; [discriminate|].
    intros H. apply IH in H. apply Hbody in Hx. rewrite fmap_cons.
    change (sum_list (w x :: (w <$> items))) with (w x + sum_list (w <$> items))%nat. lia.
Qed.

Lemma ingest_chunked_growth (ix : IngestExternals) (chunkSize previewSize : nat)
    (doc : Document) (st st' : IngestState) :
  ingest_chunked ix chunkSize previewSize doc st = (inr tt, st') ->
  List.length (upserted st') = (List.length (upserted st) + chunk_count chunkSize doc)%nat.
Proof.
  intros H. unfold chunk_count. unfold ingest_chunked in H.
  destruct (chunkDocument (doc_text doc) chunkSize) as [chunks|]; [|discriminate].
  apply ingest_chunks_ok in H as (embs & Hlen & ->).
  rewrite length_app, length_imap, length_zip. lia.
Qed.

Lemma ingest_whole_growth (ix : IngestExternals) (doc : Document) (st st' : IngestState) :
  ingest_whole ix doc st = (inr tt, st') ->
  List.length (upserted st') = (List.length (upserted st) + 1)%nat.
Proof.
  unfold ingest_whole, ibind.
  destruct (embed ix (doc_text doc) st) as [[err|e] st1] eqn:He; [discriminate|].
  intros Hu. apply embed_upserted in He. apply upsert_upserted in Hu.
  rewrite Hu, He, length_app. reflexivity.
Qed.

(** X25: when [initializeRAG] returns true, it has upserted one record per
    expertise item, and one per chunk of 500 tokens of each paper and
    per chunk of 400 tokens of each trial. *)
Theorem initializeRAG_upsert_count
    (ix : IngestExternals) (expertiseData researchPapers clinicalTrials : list Document)
    (st st' : IngestState) :
  initializeRAG ix expertiseData researchPapers clinicalTrials st = (true, st') ->
  List.length (upserted st') =
    (List.length (upserted st) + List.length expertiseData +
     sum_list (chunk_count 500 <$> researchPapers) +
     sum_list (chunk_count 400 <$> clinicalTrials))%nat.
Proof.
  unfold initializeRAG, ibind at 1.
  destruct (pinecone_index (services ix) (trace (base st)) INDEX_NAME);
    [|discriminate].
  unfold ibind at 1.
  destruct (loadProfessorExpertise ix expertiseData _) as [[err|[]] st1] eqn:H1;
    [discriminate|].
  unfold ibind at 1.
  destruct (ingestResearchPapers ix researchPapers st1) as [[err|[]] st2] eqn:H2;
    [discriminate|].
  destruct (ingestClinicalTrials ix clinicalTrials st2) as [[err|[]] st3] eqn:H3;
    [discriminate|].
  intros [= <-].
  apply (for_each_growth _ (fun _ => 1%nat) _ (ingest_whole_growth ix)) in H1.
  apply (for_each_growth _ (chunk_count 500) _
           (fun x s s' => ingest_chunked_growth ix 500 800 x s s')) in H2.
  apply (for_each_growth _ (chunk_count 400) _
           (fun x s s' => ingest_chunked_growth ix 400 600 x s s')) in H3.
  cbn [upserted] in H1.
  assert (Hone : sum_list ((fun _ : Document => 1%nat) <$> expertiseData)
                 = List.length expertiseData).
  { clear. induction expertiseData as [|d ds IH]; [reflexivity|].
    rewrite fmap_cons. cbn [List.length]. rewrite <- IH. reflexivity. }
  lia.
Qed.

Lemma initializeRAG_upsert_count_witness :
  List.length (upserted (initializeRAG demo_ingest [demo_expertise] [demo_paper] [demo_paper]
                           initial_ingest_state).2) =
    (List.length (upserted initial_ingest_state) + List.length [demo_expertise] +
     sum_list (chunk_count 500 <$> [demo_paper]) +
     sum_list (chunk_count 400 <$> [demo_paper]))%nat.
Proof.
  apply (initializeRAG_upsert_count demo_ingest [demo_expertise] [demo_paper] [demo_paper]
           initial_ingest_state).
  vm_compute. reflexivity.
Defined.
